(** * EventQL / zbase: LSM partition writer and MapReduce reduce task

    A shallow embedding of
    - [src/zbase/core/LSMPartitionWriter.cc] (insertRecords, needsCommit,
      commit, compact, writeArenaToDisk) and
    - [src/zbase/mapreduce/tasks/ReduceTask.cc] (build, execute,
      executeRemote),
    followed by the properties the specification states about them.

    Conventions.
    - A [SHA1Hash] (160 bit) is a number [N]; a [uint64_t] version is an [N]
      (the code only compares versions, it never does arithmetic on them);
      a [size_t] index into the shard list is a [nat].
    - [HashMap<SHA1Hash, _>] is a [gmap N _], [Set<SHA1Hash>] a [gset N].
    - A C++ exception is a value [StandardException]; a function that may
      throw returns [StandardException + A].
    - Mutexes are not modelled: every function below is the body of one
      critical section (or a sequence of them), run without interference.
      The three phases of [commit] and the install step of [compact] are
      separate definitions, so that statements can speak about the state a
      phase finds and the state it leaves.
    - The head arena is an object shared by the writer and the published
      snapshot, and [insertRecords] changes it in place; here the arena is
      a field of the snapshot in the cell [head_], and changing the arena
      replaces that field.
    - Of the logging calls only [logError] is kept (as [error_log]);
      [logTrace] and [logDebug] are left out. *)

From stdpp Require Import gmap strings list fin_maps pretty.
From Stdlib Require Import NArith HexString.

Local Open Scope N_scope.

(** ** Exceptions *)

Inductive ExceptionType :=
  | kIllegalStateError
  | kConcurrentModificationError
  | kRuntimeError
  | kIOError.

Record StandardException := RAISE {
  etype : ExceptionType;
  what : string
}.

(** ** Data model of the partition writer *)

Abbreviation SHA1Hash := N (only parsing).

Record RecordRef := mkRecordRef {
  record_id : SHA1Hash;
  record_version : N;
  record : string;
  is_update : bool
}.

Definition set_is_update (b : bool) (r : RecordRef) : RecordRef :=
  {| record_id := record_id r;
     record_version := record_version r;
     record := record r;
     is_update := b |}.

Record LSMTableRef := mkLSMTableRef {
  filename : string
}.

(** Modelled from the spec: [RecordArena] (zbase/core/RecordArena.h) is not
    among the sources.  Spec, section 4.1: an unordered mapping from record
    id to the retained record; [insert] returns true iff the record replaced
    nothing or replaced an older version, and is a no-op otherwise;
    [fetch_record_version] is 0 for an absent id; [size] counts the distinct
    record ids held; [fetch_records] visits the retained records in an
    unspecified order (here: the order of [map_to_list]). *)
Abbreviation RecordArena := (gmap N RecordRef) (only parsing).

Definition fetchRecordVersion (arena : RecordArena) (id : SHA1Hash) : N :=
  match arena !! id with
  | Some r => record_version r
  | None => 0
  end.

Definition insertRecord (r : RecordRef) (arena : RecordArena)
  : bool * RecordArena :=
  match arena !! record_id r with
  | None => (true, <[record_id r := r]> arena)
  | Some old =>
      if record_version old <? record_version r
      then (true, <[record_id r := r]> arena)
      else (false, arena)
  end.

Definition arena_size (arena : RecordArena) : nat := size arena.

Definition fetchRecords (arena : RecordArena) : list RecordRef :=
  (map_to_list arena).*2.

Record PartitionSnapshot := mkSnapshot {
  base_path : string;
  head_arena : RecordArena;
  compacting_arena : option RecordArena;
  lsm_tables : list LSMTableRef
}.

(** The files of a partition directory.  [idx_files] are the version
    sidecars, [cst_files] the columnar tables (one row per record, the three
    extension columns kept apart from the shredded message), and
    [snapshot_file] what the last [writeToDisk] of a snapshot persisted. *)
Record CSTableRow (MessageObject : Type) := mkRow {
  row_obj : MessageObject;
  lsm_is_update : bool;
  lsm_id : string;
  lsm_version : N
}.
Arguments mkRow {_} _ _ _ _.
Arguments row_obj {_} _.
Arguments lsm_is_update {_} _.
Arguments lsm_id {_} _.
Arguments lsm_version {_} _.

(** What the writer takes from code that is not among the sources:
    [FileUtil::joinPaths], the message decoder bound to the table schema
    (it may throw), and [SHA1Hash::toString]. *)
Class StorageEnv := {
  joinPaths : string → string → string;
  MessageObject : Type;
  decode : string → StandardException + MessageObject;
  SHA1Hash_toString : SHA1Hash → string
}.

Record Disk `{StorageEnv} := mkDisk {
  idx_files : gmap string (gmap N N);
  cst_files : gmap string (list (CSTableRow MessageObject));
  snapshot_file : option (list LSMTableRef)
}.

(** The writer: the [frozen_] flag, the snapshot cell [head_] and the
    directory the snapshots refer to. *)
Record Writer `{StorageEnv} := mkWriter {
  frozen_ : bool;
  head_ : PartitionSnapshot;
  disk : Disk
}.

Section LSMPartitionWriter.
Context `{StorageEnv}.

Definition setSnapshot (snap : PartitionSnapshot) (w : Writer) : Writer :=
  {| frozen_ := frozen_ w; head_ := snap; disk := disk w |}.

Definition set_disk (d : Disk) (w : Writer) : Writer :=
  {| frozen_ := frozen_ w; head_ := head_ w; disk := d |}.

Definition set_head_arena (a : RecordArena) (snap : PartitionSnapshot)
  : PartitionSnapshot :=
  {| base_path := base_path snap;
     head_arena := a;
     compacting_arena := compacting_arena snap;
     lsm_tables := lsm_tables snap |}.

(** [HashMap::emplace]: inserts only when the key is absent. *)
Definition emplace {V} (k : N) (v : V) (m : gmap N V) : gmap N V :=
  match m !! k with
  | Some _ => m
  | None => <[k := v]> m
  end.

(** Modelled from the spec: [RecordVersionMap::lookup] is not among the
    sources.  Spec, section 4.2: for each key present in both the map and
    the index file, the map entry becomes the max of the two versions.  A
    missing file is an I/O error. *)
Definition merge_index (idx rec_versions : gmap N N) : gmap N N :=
  map_imap (λ k v, Some (match idx !! k with
                         | Some v' => N.max v v'
                         | None => v
                         end)) rec_versions.

Definition RecordVersionMap_lookup (d : Disk) (rec_versions : gmap N N)
    (path : string) : StandardException + gmap N N :=
  match idx_files d !! path with
  | Some idx => inr (merge_index idx rec_versions)
  | None => inl (RAISE kIOError path)
  end.

(** First loop of [insertRecords] (lines 50-55). *)
Definition probe_head (head : RecordArena) (records : list RecordRef)
  : gmap N N :=
  fold_left
    (λ rec_versions r,
       if fetchRecordVersion head (record_id r) <? record_version r
       then emplace (record_id r) 0 rec_versions
       else rec_versions)
    records ∅.

(** Second loop (lines 57-64). *)
Definition probe_compacting (compacting : option RecordArena)
    (rec_versions : gmap N N) : gmap N N :=
  match compacting with
  | Some arena =>
      map_imap (λ id second,
                  let v := fetchRecordVersion arena id in
                  Some (if second <? v then v else second)) rec_versions
  | None => rec_versions
  end.

(** Third loop (lines 66-73), over the tables from [rbegin] to [rend]. *)
Fixpoint probe_tables (d : Disk) (base : string) (rtables : list LSMTableRef)
    (rec_versions : gmap N N) : StandardException + gmap N N :=
  match rtables with
  | [] => inr rec_versions
  | tbl :: rest =>
      match RecordVersionMap_lookup d rec_versions
              (joinPaths base (filename tbl +:+ ".idx")) with
      | inl e => inl e
      | inr rec_versions' => probe_tables d base rest rec_versions'
      end
  end.

(** [rec_versions[id]]: reads the entry, creating it with 0 when absent. *)
Definition subscript (id : N) (m : gmap N N) : N * gmap N N :=
  match m !! id with
  | Some v => (v, m)
  | None => (0, <[id := 0]> m)
  end.

(** Body of the last loop (lines 77-90).  The loop variable is a copy of
    the record, so setting [is_update] does not touch the caller's vector. *)
Definition insert_one
    (st : gmap N N * RecordArena * gset N) (r : RecordRef)
  : gmap N N * RecordArena * gset N :=
  let '(rec_versions, head, inserted_ids) := st in
  let '(headv, rec_versions) := subscript (record_id r) rec_versions in
  let r := if 0 <? headv then set_is_update true r else r in
  if record_version r <=? headv then (rec_versions, head, inserted_ids)
  else
    let '(ok, head) := insertRecord r head in
    if ok then (rec_versions, head, {[record_id r]} ∪ inserted_ids)
    else (rec_versions, head, inserted_ids).

Definition insertRecords (records : list RecordRef) (w : Writer)
  : StandardException + (gset N * Writer) :=
  if frozen_ w then inl (RAISE kIllegalStateError "partition is frozen")
  else
    let snap := head_ w in
    let rec_versions := probe_head (head_arena snap) records in
    let rec_versions := probe_compacting (compacting_arena snap) rec_versions in
    match probe_tables (disk w) (base_path snap) (rev (lsm_tables snap))
            rec_versions with
    | inl e => inl e
    | inr rec_versions =>
        if decide (rec_versions = ∅) then inr (∅, w)
        else
          let '(_, head, inserted_ids) :=
            fold_left insert_one records
              (rec_versions, head_arena snap, ∅) in
          inr (inserted_ids, setSnapshot (set_head_arena head snap) w)
    end.

Definition needsCommit (w : Writer) : bool :=
  bool_decide (0 < arena_size (head_arena (head_ w)))%nat.

Definition needsCompaction (w : Writer) : bool :=
  if needsCommit w then true else false.

(** *** writeArenaToDisk (lines 205-242)

    The visitor passed to [fetchRecords]: decode, shred, write the three
    extension columns, remember the version for the sidecar.  When the
    decoder throws, the exception leaves [writeArenaToDisk]; the files it
    had begun are orphans, which the model does not keep. *)
Definition shred_one
    (acc : StandardException +
           (list (CSTableRow MessageObject) * gmap N N))
    (r : RecordRef)
  : StandardException + (list (CSTableRow MessageObject) * gmap N N) :=
  match acc with
  | inl e => inl e
  | inr (rows, vmap) =>
      match decode (record r) with
      | inl e => inl e
      | inr obj =>
          inr (rows ++ [mkRow obj (is_update r)
                          (SHA1Hash_toString (record_id r))
                          (record_version r)],
               emplace (record_id r) (record_version r) vmap)
      end
  end.

Definition writeArenaToDisk (arena : RecordArena) (file : string) (d : Disk)
  : StandardException + Disk :=
  match fold_left shred_one (fetchRecords arena) (inr ([], ∅)) with
  | inl e => inl e
  | inr (rows, vmap) =>
      inr {| idx_files := <[file +:+ ".idx" := vmap]> (idx_files d);
             cst_files := <[file +:+ ".cst" := rows]> (cst_files d);
             snapshot_file := snapshot_file d |}
  end.

(** Modelled from the spec: [PartitionSnapshot::writeToDisk] is not among
    the sources.  Spec, sections 4.4 and 6: it persists the snapshot
    metadata, which references the ordered list of tables. *)
Definition writeToDisk (snap : PartitionSnapshot) (d : Disk) : Disk :=
  {| idx_files := idx_files d;
     cst_files := cst_files d;
     snapshot_file := Some (lsm_tables snap) |}.

(** *** commit (lines 109-153)

    [filename] is the token drawn from [Random::singleton()->hex64()]. *)
Definition isNull {A} (p : option A) : bool :=
  match p with
  | None => true
  | Some _ => false
  end.

(** Phase A, lines 114-124: returns the local [arena] and the writer. *)
Definition commit_flip (w : Writer) : option RecordArena * Writer :=
  let snap := head_ w in
  if isNull (compacting_arena snap)
     && bool_decide (0 < arena_size (head_arena snap))%nat
  then
    let snap :=
      {| base_path := base_path snap;
         head_arena := ∅;
         compacting_arena := Some (head_arena snap);
         lsm_tables := lsm_tables snap |} in
    (compacting_arena snap, setSnapshot snap w)
  else (compacting_arena snap, w).

(** Phase B, lines 128-132. *)
Definition commit_flush (filename : string) (arena : RecordArena) (w : Writer)
  : StandardException + Writer :=
  let snap := head_ w in
  let filepath := joinPaths (base_path snap) filename in
  match writeArenaToDisk arena filepath (disk w) with
  | inl e => inl e
  | inr d => inr (set_disk d w)
  end.

(** Phase C, lines 145-151. *)
Definition commit_install (filename : string) (w : Writer) : Writer :=
  let snap := head_ w in
  let snap :=
    {| base_path := base_path snap;
       head_arena := head_arena snap;
       compacting_arena := None;
       lsm_tables := lsm_tables snap ++ [mkLSMTableRef filename] |} in
  setSnapshot snap (set_disk (writeToDisk snap (disk w)) w).

(** [commit] returns the exception that left it, if any, and the writer as
    it stands then. *)
Definition commit (filename : string) (w : Writer)
  : option StandardException * Writer :=
  let '(arena, w) := commit_flip w in
  match arena with
  | Some a =>
      if bool_decide (0 < arena_size a)%nat then
        match commit_flush filename a w with
        | inl e => (Some e, w)
        | inr w => (None, commit_install filename w)
        end
      else (None, w)
  | None => (None, w)
  end.

(** *** compact (lines 155-203) *)

Definition compaction_aborted : StandardException :=
  RAISE kConcurrentModificationError "can't commit compaction, aborting".

(** The loop of lines 180-193.  [old_tables !! i] is [Some] exactly when
    [i < old_tables.size()], so the match is the source's [if]/[else]. *)
Fixpoint install_loop (old_tables : list LSMTableRef)
    (tables : list LSMTableRef) (i : nat) (new_tables : list LSMTableRef)
  : StandardException + list LSMTableRef :=
  match tables with
  | [] => inr new_tables
  | tbl :: rest =>
      match old_tables !! i with
      | Some old =>
          if bool_decide (filename old ≠ filename tbl)
          then inl compaction_aborted
          else install_loop old_tables rest (S i) new_tables
      | None => install_loop old_tables rest (S i) (new_tables ++ [tbl])
      end
  end.

(** Lines 172-202: the install step, given the table list captured before
    ([old_tables]) and the outcome of the compaction ([new_tables]). *)
Definition compact_install (old_tables new_tables : list LSMTableRef)
    (w : Writer) : option StandardException * Writer :=
  let snap := head_ w in
  if (length (lsm_tables snap) <? length old_tables)%nat
  then (Some compaction_aborted, w)
  else
    match install_loop old_tables (lsm_tables snap) 0 new_tables with
    | inl e => (Some e, w)
    | inr new_tables =>
        let snap :=
          {| base_path := base_path snap;
             head_arena := head_arena snap;
             compacting_arena := compacting_arena snap;
             lsm_tables := new_tables |} in
        (None, setSnapshot snap (set_disk (writeToDisk snap (disk w)) w))
    end.

(** [compact] holds no lock between capturing the table list and the
    install step; [others] is what other threads published in between
    (the identity when there is none). *)
Definition compact (filename : string) (others : Writer → Writer)
    (w : Writer) : option StandardException * Writer :=
  match commit filename w with
  | (Some e, w) => (Some e, w)
  | (None, w) =>
      let old_tables := lsm_tables (head_ w) in
      let new_tables := old_tables in
      compact_install old_tables new_tables (others w)
  end.

End LSMPartitionWriter.

(** ** Data model of the MapReduce shard graph *)

Record InetAddr := mkInetAddr {
  hostAndPort : string;
  ipAndPort : string
}.

Record ReplicaRef := mkReplicaRef {
  replica_name : string;
  addr : InetAddr
}.

Record MapReduceShardResult := mkShardResult {
  host : ReplicaRef;
  result_id : SHA1Hash
}.

(** [task] is the address of the task object ([shard->task = this]). *)
Record MapReduceTaskShard := mkShard {
  task : N;
  dependencies : list nat
}.

Abbreviation MapReduceShardList := (list MapReduceTaskShard) (only parsing).

(** The abstract class [MapReduceTask], as far as [build] goes: a virtual
    method that appends to the shard list and returns indexes into it. *)
Record MapReduceTask := mkTask {
  build : MapReduceShardList → list nat * MapReduceShardList
}.

Record MapReduceScheduler := mkScheduler {
  getResultURL : nat → option string
}.

Record HTTPRequest := mkGet {
  url : string;
  headers : list (string * string)
}.

Record HTTPResponse := mkResponse {
  statusCode : N;
  body : string
}.

(** What the reduce task takes from code that is not among the sources:
    the session and [AnalyticsAuth::encodeAuthToken], [URI::urlEncode],
    [SHA1Hash::fromHexString], the replication scheme, and the network: an
    HTTP request either throws or yields a response, and may change the
    state of the world. *)
Class ClusterEnv := {
  AnalyticsSession : Type;
  encodeAuthToken : AnalyticsSession → string;
  urlEncode : string → string;
  fromHexString : string → SHA1Hash;
  replicasFor : SHA1Hash → list ReplicaRef;
  World : Type;
  executeRequest :
    World → HTTPRequest → World * (StandardException + HTTPResponse)
}.

Record ReduceTask `{ClusterEnv} := mkReduceTask {
  this : N;
  session_ : AnalyticsSession;
  program_source : string;
  method_name_ : string;
  sources_ : list MapReduceTask;
  num_shards_ : nat
}.

(** The world, the requests sent so far and what [logError] received. *)
Record Net `{ClusterEnv} := mkNet {
  world : World;
  sent : list HTTPRequest;
  error_log : list StandardException
}.

Section ReduceTask.
Context `{ClusterEnv}.

(** *** build (lines 32-51) *)

(** Lines 36-39. *)
Definition build_sources (sources : list MapReduceTask)
    (shards : MapReduceShardList) : list nat * MapReduceShardList :=
  fold_left
    (λ '(in_indexes, shards) src,
       let '(src_indexes, shards) := build src shards in
       (in_indexes ++ src_indexes, shards))
    sources ([], shards).

(** Lines 41-48: [n] iterations remain. *)
Fixpoint alloc_shards (this : N) (in_indexes : list nat) (n : nat)
    (out_indexes : list nat) (shards : MapReduceShardList)
  : list nat * MapReduceShardList :=
  match n with
  | O => (out_indexes, shards)
  | S n =>
      let shard := {| task := this; dependencies := in_indexes |} in
      alloc_shards this in_indexes n
        (out_indexes ++ [length shards]) (shards ++ [shard])
  end.

Definition ReduceTask_build (t : ReduceTask) (shards : MapReduceShardList)
  : list nat * MapReduceShardList :=
  let '(in_indexes, shards) := build_sources (sources_ t) shards in
  alloc_shards (this t) in_indexes (num_shards_ t) [] shards.

(** A reduce task seen through the [MapReduceTask] interface. *)
Definition ReduceTask_task (t : ReduceTask) : MapReduceTask :=
  {| build := ReduceTask_build t |}.

(** *** executeRemote (lines 89-139) *)

Definition reduce_url (t : ReduceTask) (input_tables : list string)
    (host : ReplicaRef) : string :=
  let url :=
    "http://" +:+ ipAndPort (addr host)
    +:+ "/api/v1/mapreduce/tasks/reduce?program_source="
    +:+ urlEncode (program_source t)
    +:+ "&method_name=" +:+ urlEncode (method_name_ t) in
  fold_left
    (λ url input_table, url +:+ "&input_table=" +:+ urlEncode input_table)
    input_tables url.

Definition reduce_request (t : ReduceTask) (input_tables : list string)
    (host : ReplicaRef) : HTTPRequest :=
  let api_token := encodeAuthToken (session_ t) in
  let auth_headers := [("Authorization", "Token " +:+ api_token)] in
  mkGet (reduce_url t input_tables host) auth_headers.

Definition http_executeRequest (req : HTTPRequest) (net : Net)
  : Net * (StandardException + HTTPResponse) :=
  let '(w, res) := executeRequest (world net) req in
  ({| world := w; sent := sent net ++ [req]; error_log := error_log net |},
   res).

Definition executeRemote (t : ReduceTask) (input_tables : list string)
    (host : ReplicaRef) (net : Net)
  : Net * (StandardException + option MapReduceShardResult) :=
  let req := reduce_request t input_tables host in
  match http_executeRequest req net with
  | (net, inl e) => (net, inl e)
  | (net, inr res) =>
      if statusCode res =? 204 then (net, inr None)
      else if negb (statusCode res =? 201) then
        (net, inl (RAISE kRuntimeError
                     ("received non-201 response: " +:+ body res)))
      else
        let result :=
          {| host := host; result_id := fromHexString (body res) |} in
        (net, inr (Some result))
  end.

(** *** execute (lines 53-87) *)

(** Lines 56-64. *)
Definition gather_inputs (job : MapReduceScheduler) (deps : list nat)
  : list string :=
  fold_left
    (λ input_tables input,
       match getResultURL job input with
       | None => input_tables
       | Some input_tbl => input_tables ++ [input_tbl]
       end)
    deps [].

Definition logError (e : StandardException) (net : Net) : Net :=
  {| world := world net; sent := sent net;
     error_log := error_log net ++ [e] |}.

Definition all_replicas_failed (errors : list string) : StandardException :=
  RAISE kRuntimeError
    ("MapTableTask::execute failed: " +:+ String.concat ", " errors).

(** Lines 70-86. *)
Fixpoint try_hosts (t : ReduceTask) (input_tables : list string)
    (hosts : list ReplicaRef) (errors : list string) (net : Net)
  : Net * (StandardException + option MapReduceShardResult) :=
  match hosts with
  | [] => (net, inl (all_replicas_failed errors))
  | host :: hosts =>
      match executeRemote t input_tables host net with
      | (net, inr result) => (net, inr result)
      | (net, inl e) =>
          try_hosts t input_tables hosts (errors ++ [what e]) (logError e net)
      end
  end.

(** [output_id] is the hash drawn from [Random::singleton()->sha1()]. *)
Definition execute (t : ReduceTask) (shard : MapReduceTaskShard)
    (job : MapReduceScheduler) (output_id : SHA1Hash) (net : Net)
  : Net * (StandardException + option MapReduceShardResult) :=
  let input_tables := gather_inputs job (dependencies shard) in
  let hosts := replicasFor output_id in
  try_hosts t input_tables hosts [] net.

End ReduceTask.

(** ** Vocabulary of the statements about the partition writer *)

Section Versions.
Context `{StorageEnv}.

(** The version of [id] in the compacting arena, 0 when there is none. *)
Definition compacting_version (snap : PartitionSnapshot) (id : SHA1Hash) : N :=
  match compacting_arena snap with
  | Some arena => fetchRecordVersion arena id
  | None => 0
  end.

(** The version of [id] in the sidecar of one table, 0 when it has none. *)
Definition index_version (d : Disk) (base : string) (tbl : LSMTableRef)
    (id : SHA1Hash) : N :=
  match idx_files d !! joinPaths base (filename tbl +:+ ".idx") with
  | Some idx => default 0 (idx !! id)
  | None => 0
  end.

(** The highest version of [id] in the sidecars of a list of tables. *)
Definition tables_version (d : Disk) (base : string)
    (tables : list LSMTableRef) (id : SHA1Hash) : N :=
  foldr (λ tbl acc, N.max (index_version d base tbl id) acc) 0 tables.

Definition disk_version (d : Disk) (snap : PartitionSnapshot) (id : SHA1Hash)
  : N :=
  tables_version d (base_path snap) (lsm_tables snap) id.

(** The highest version of [id] below the head arena. *)
Definition flushed_version (w : Writer) (id : SHA1Hash) : N :=
  N.max (compacting_version (head_ w) id) (disk_version (disk w) (head_ w) id).

(** The highest version of [id] anywhere, the head arena being [head]. *)
Definition known_version (w : Writer) (head : RecordArena) (id : SHA1Hash)
  : N :=
  N.max (fetchRecordVersion head id) (flushed_version w id).

(** Every table of the list has its sidecar (invariant I5). *)
Definition indexed (d : Disk) (base : string) (tables : list LSMTableRef)
  : bool :=
  forallb
    (λ tbl, bool_decide (is_Some
       (idx_files d !! joinPaths base (filename tbl +:+ ".idx"))))
    tables.

Definition tables_indexed (w : Writer) : bool :=
  indexed (disk w) (base_path (head_ w)) (lsm_tables (head_ w)).

(** Some record of the batch carries [id] with a version above the one the
    head arena holds: the condition under which the first loop of
    [insertRecords] gives [id] an entry. *)
Definition wanted (head : RecordArena) (records : list RecordRef)
    (id : SHA1Hash) : bool :=
  existsb
    (λ r, (record_id r =? id)
          && (fetchRecordVersion head (record_id r) <? record_version r))
    records.

(** One record of an [insertRecords] batch, in the words of the
    specification: against the versions the writer [w] held when the call
    began and the head arena as the earlier records of the batch left it,
    the record is retained exactly when its version is greater than the
    known one, and is an update when a version of it was flushed or is
    being flushed. *)
Definition retain (w : Writer) (st : RecordArena * gset N) (r : RecordRef)
  : RecordArena * gset N :=
  let '(head, inserted_ids) := st in
  if known_version w head (record_id r) <? record_version r
  then
    let upd := is_update r || (0 <? flushed_version w (record_id r)) in
    (<[record_id r := set_is_update upd r]> head,
     {[record_id r]} ∪ inserted_ids)
  else (head, inserted_ids).

Definition retain_all (w : Writer) (records : list RecordRef)
  : RecordArena * gset N :=
  fold_left (retain w) records (head_arena (head_ w), ∅).

(** What the loop needs to know about a record [r] and its entry:
    either the entry is the flushed version of the id, or there is no
    entry worth speaking of and the head arena already holds the record's
    version or a later one. *)
Definition entry_ok (w : Writer) (rec_versions : gmap N N)
    (head : RecordArena) (r : RecordRef) : Prop :=
  default 0 (rec_versions !! record_id r) = flushed_version w (record_id r) ∨
  (default 0 (rec_versions !! record_id r) = 0 ∧
   record_version r ≤ fetchRecordVersion head (record_id r)).

(** Some table among the first [length old_tables] of the current list is
    not named as the captured one at its position. *)
Definition prefix_renamed (old_tables tables : list LSMTableRef) : Prop :=
  ∃ i old tbl,
    old_tables !! i = Some old ∧ tables !! i = Some tbl ∧
    filename old ≠ filename tbl.

(** A partition that holds nothing: no record in the head arena, no
    compacting arena, no table. *)
Definition empty_partition (base : string) (d : Disk) : Writer :=
  {| frozen_ := false;
     head_ := {| base_path := base; head_arena := ∅;
                 compacting_arena := None; lsm_tables := [] |};
     disk := d |}.

(** Every record of the arena can be decoded against the schema. *)
Definition decodable (arena : RecordArena) : bool :=
  forallb (λ r, match decode (record r) with inl _ => false | inr _ => true end)
    (fetchRecords arena).

(** The sidecar content of an arena: the version of every record. *)
Definition versions_of (arena : RecordArena) : gmap N N :=
  record_version <$> arena.

(** Every record of the arena is filed under its own id, as
    [insertRecord] does. *)
Definition arena_wf (arena : RecordArena) : Prop :=
  ∀ id r, arena !! id = Some r → record_id r = id.

(** The row of the columnar file that [writeArenaToDisk] writes for a
    record. *)
Definition row_of (r : RecordRef) (row : CSTableRow MessageObject) : Prop :=
  decode (record r) = inr (row_obj row) ∧
  lsm_is_update row = is_update r ∧
  lsm_id row = SHA1Hash_toString (record_id r) ∧
  lsm_version row = record_version r.

(** The version of the first record of the list that carries [id]. *)
Fixpoint first_version (records : list RecordRef) (id : SHA1Hash)
  : option N :=
  match records with
  | [] => None
  | r :: records =>
      if record_id r =? id then Some (record_version r)
      else first_version records id
  end.

End Versions.

(** ** A concrete environment, for the examples

    Paths joined with a slash, records that always decode (the message is
    the payload itself), ids printed in decimal. *)
Definition N_to_string (n : N) : string := pretty n.

#[local] Instance plain_storage : StorageEnv := {|
  joinPaths := λ p1 p2, p1 +:+ "/" +:+ p2;
  MessageObject := string;
  decode := λ payload, inr payload;
  SHA1Hash_toString := N_to_string
|}.

Definition no_files : @Disk plain_storage :=
  {| idx_files := ∅; cst_files := ∅; snapshot_file := None |}.

Definition flushing_arena : RecordArena :=
  {[ 2 := mkRecordRef 2 3 "b" false ]}.

(** A writer with a record in each place: id 1 at version 4 in the head
    arena, id 2 at version 3 in the compacting arena, id 3 at version 9 in
    the sidecar of the one table. *)
Definition sample_writer : @Writer plain_storage :=
  {| frozen_ := false;
     head_ :=
       {| base_path := "/p";
          head_arena := {[ 1 := mkRecordRef 1 4 "a" false ]};
          compacting_arena := Some flushing_arena;
          lsm_tables := [mkLSMTableRef "t1"] |};
     disk :=
       {| idx_files := {[ "/p/t1.idx" := {[ 3 := 9 ]} ]};
          cst_files := ∅;
          snapshot_file := Some [mkLSMTableRef "t1"] |} |}.

(** A writer with two records waiting in the head arena and nothing else. *)
Definition pending_writer : @Writer plain_storage :=
  {| frozen_ := false;
     head_ :=
       {| base_path := "/p";
          head_arena := {[ 1 := mkRecordRef 1 5 "a" false;
                           2 := mkRecordRef 2 1 "b" false ]};
          compacting_arena := None;
          lsm_tables := [] |};
     disk := no_files |}.

(** ** Vocabulary of the statements about the reduce task *)

(** Invariant I6: every dependency of a shard is an index below its own. *)
Definition topological (shards : list MapReduceTaskShard) : Prop :=
  ∀ i shard d,
    shards !! i = Some shard → d ∈ dependencies shard → (d < i)%nat.

(** What [build] promises, whatever the class of the task: on a list in
    topological order it leaves a list in topological order that is not
    shorter, and returns indexes into it. *)
Definition well_built (src : MapReduceTask) : Prop :=
  ∀ shards,
    topological shards →
    topological (build src shards).2 ∧
    (length shards ≤ length (build src shards).2)%nat ∧
    Forall (λ i, (i < length (build src shards).2)%nat) (build src shards).1.

(** Building the sources one after the other, in the words of the
    specification: the indexes each produced, collected in one flat list,
    and the shard list they leave. *)
Fixpoint build_in_order (sources : list MapReduceTask)
    (shards : list MapReduceTaskShard)
  : list nat * list MapReduceTaskShard :=
  match sources with
  | [] => ([], shards)
  | src :: sources =>
      let '(src_indexes, shards) := build src shards in
      let '(indexes, shards) := build_in_order sources shards in
      (src_indexes ++ indexes, shards)
  end.

(** A task without sources, for the examples: it appends [n] shards that
    depend on nothing and returns their indexes. *)
Definition table_task (this : N) (n : nat) : MapReduceTask :=
  {| build := λ shards,
       (seq (length shards) n,
        shards ++ replicate n {| task := this; dependencies := [] |}) |}.

Section Failover.
Context `{ClusterEnv}.

(** Every host of the list throws when tried in turn, starting from
    [net]: the state of the network after the last of them, and the
    messages of the exceptions, in order. *)
Fixpoint all_throw (t : ReduceTask) (input_tables : list string)
    (hosts : list ReplicaRef) (net : Net) : option (Net * list string) :=
  match hosts with
  | [] => Some (net, [])
  | host :: hosts =>
      match executeRemote t input_tables host net with
      | (net, inl e) =>
          match all_throw t input_tables hosts (logError e net) with
          | Some (net, errors) => Some (net, what e :: errors)
          | None => None
          end
      | (_, inr _) => None
      end
  end.

End Failover.

(** ** A concrete cluster, for the examples

    Three replicas; sessions are their own tokens; nothing needs URL
    encoding; the world is the script of what the next requests meet. *)
Definition replica (name ip : string) : ReplicaRef :=
  {| replica_name := name;
     addr := {| hostAndPort := name +:+ ":7003"; ipAndPort := ip +:+ ":7003" |} |}.

Definition replica_A : ReplicaRef := replica "a" "10.0.0.1".
Definition replica_B : ReplicaRef := replica "b" "10.0.0.2".
Definition replica_C : ReplicaRef := replica "c" "10.0.0.3".

#[local] Instance scripted_cluster : ClusterEnv := {|
  AnalyticsSession := string;
  encodeAuthToken := λ session, session;
  urlEncode := λ s, s;
  fromHexString := λ s, HexString.Raw.to_N s 0;
  replicasFor := λ output_id,
    if output_id =? 0 then [] else [replica_A; replica_B; replica_C];
  World := list (StandardException + HTTPResponse);
  executeRequest := λ script req,
    match script with
    | outcome :: script => (script, outcome)
    | [] => ([], inl (RAISE kIOError "connection refused"))
    end
|}.

Definition sample_reduce (sources : list MapReduceTask) (n : nat)
  : @ReduceTask scripted_cluster :=
  {| this := 7; session_ := "s3cr3t"; program_source := "p.js";
     method_name_ := "reduce"; sources_ := sources; num_shards_ := n |}.

Definition sample_job : MapReduceScheduler :=
  {| getResultURL := λ i,
       match i with
       | O => Some "http://10.0.0.9/r0"
       | _ => None
       end |}.

Definition quiet (script : list (StandardException + HTTPResponse))
  : @Net scripted_cluster :=
  {| world := script; sent := []; error_log := [] |}.

(** ** Further vocabulary of the statements about the partition writer *)

Section Batches.
Context `{StorageEnv}.

(** The highest version the batch carries for [id], 0 when it has no
    record of that id. *)
Fixpoint batch_version (records : list RecordRef) (id : SHA1Hash) : N :=
  match records with
  | [] => 0
  | r :: records =>
      if record_id r =? id
      then N.max (record_version r) (batch_version records id)
      else batch_version records id
  end.

(** The sidecar that a flush under [name] writes is not the sidecar of a
    table the snapshot already lists. *)
Definition fresh_table (w : Writer) (name : string) : bool :=
  forallb
    (λ tbl, bool_decide
       (joinPaths (base_path (head_ w)) (filename tbl +:+ ".idx")
        ≠ joinPaths (base_path (head_ w)) name +:+ ".idx"))
    (lsm_tables (head_ w)).

(** [FileUtil::joinPaths] puts the extension of a file name at the end of
    the path: the sidecar [writeArenaToDisk] writes for [name] is the one
    [insertRecords] looks up for the table of that name. *)
Definition sidecar_path_agrees (base name : string) : Prop :=
  joinPaths base (name +:+ ".idx") = joinPaths base name +:+ ".idx".

(** Both arenas of the snapshot file their records by id. *)
Definition arenas_wf (w : Writer) : Prop :=
  arena_wf (head_arena (head_ w)) ∧
  ∀ arena, compacting_arena (head_ w) = Some arena → arena_wf arena.

(** The exception of the first record of the list that does not decode,
    if there is one. *)
Fixpoint first_decode_error (records : list RecordRef)
  : option StandardException :=
  match records with
  | [] => None
  | r :: records =>
      match decode (record r) with
      | inl e => Some e
      | inr _ => first_decode_error records
      end
  end.

End Batches.

(** ** Further vocabulary of the statements about the reduce task *)

(** A task whose [build] only appends to the shard list. *)
Definition appends_only (src : MapReduceTask) : Prop :=
  ∀ shards, ∃ new, (build src shards).2 = shards ++ new.

Section Requests.
Context `{ClusterEnv}.

(** The query parameters that name the input tables, one after the
    other. *)
Definition input_table_params (input_tables : list string) : string :=
  foldr (λ input_table rest, "&input_table=" +:+ urlEncode input_table +:+ rest)
    "" input_tables.

End Requests.

(** ** Further concrete writers, for the examples *)

Definition sample_batch : list RecordRef :=
  [mkRecordRef 1 5 "x" false; mkRecordRef 2 3 "y" false;
   mkRecordRef 3 10 "z" false].

(** [sample_writer] after [sample_batch]. *)
Definition sample_inserted : @Writer plain_storage :=
  setSnapshot
    (set_head_arena
       {[ 1 := mkRecordRef 1 5 "x" false; 3 := mkRecordRef 3 10 "z" true ]}
       (head_ sample_writer))
    sample_writer.

(** [pending_writer] after a commit under the name ["1f"]. *)
Definition committed_writer : @Writer plain_storage :=
  {| frozen_ := false;
     head_ :=
       {| base_path := "/p"; head_arena := ∅; compacting_arena := None;
          lsm_tables := [mkLSMTableRef "1f"] |};
     disk :=
       {| idx_files := {[ "/p/1f.idx" := {[ 1 := 5; 2 := 1 ]} ]};
          cst_files :=
            {[ "/p/1f.cst" :=
                 map (λ r, mkRow (record r) (is_update r)
                             (N_to_string (record_id r)) (record_version r))
                   (fetchRecords (head_arena (head_ pending_writer))) ]};
          snapshot_file := Some [mkLSMTableRef "1f"] |} |}.

(** A storage whose decoder refuses the empty message. *)
Definition strict_storage : StorageEnv := {|
  joinPaths := λ p1 p2, p1 +:+ "/" +:+ p2;
  MessageObject := string;
  decode := λ payload,
    if decide (payload = "") then inl (RAISE kRuntimeError "invalid message")
    else inr payload;
  SHA1Hash_toString := N_to_string
|}.

(** A writer on that storage with an empty message waiting in the head
    arena. *)
Definition poisoned_writer : @Writer strict_storage :=
  {| frozen_ := false;
     head_ :=
       {| base_path := "/p";
          head_arena := {[ 1 := mkRecordRef 1 5 "" false ]};
          compacting_arena := None;
          lsm_tables := [] |};
     disk := {| idx_files := ∅; cst_files := ∅; snapshot_file := None |} |}.

(** Another thread's commit, seen from [compact]: it appends the table
    ["9e"] to the published list. *)
Definition concurrent_commit (w : @Writer plain_storage)
  : @Writer plain_storage :=
  setSnapshot
    {| base_path := base_path (head_ w);
       head_arena := head_arena (head_ w);
       compacting_arena := compacting_arena (head_ w);
       lsm_tables := lsm_tables (head_ w) ++ [mkLSMTableRef "9e"] |} w.

(** * Properties of the partition writer *)

Section LSMPartitionWriter_properties.
Context `{StorageEnv}.

Implicit Types (w : Writer) (head arena : gmap N RecordRef).
Implicit Types (rec_versions : gmap N N) (r : RecordRef).
Implicit Types (records : list RecordRef) (id : N).

(** ** The version probes of insertRecords *)

Lemma wanted_false head records id r :
  wanted head records id = false → r ∈ records → record_id r = id →
  record_version r ≤ fetchRecordVersion head id.
Proof.
  unfold wanted. induction records as [|r' records IH]; simpl.
  - intros _ Hin. by apply elem_of_nil in Hin.
  - intros [Hr' Hrest]%orb_false_iff [->|Hin]%elem_of_cons Hid; [|by auto].
    subst id. rewrite N.eqb_refl in Hr'. simpl in Hr'.
    by apply N.ltb_ge in Hr'.
Qed.

Lemma emplace_lookup {V} (k k' : N) (v : V) (m : gmap N V) :
  emplace k v m !! k' =
  match m !! k' with
  | Some v' => Some v'
  | None => if k =? k' then Some v else None
  end.
Proof.
  unfold emplace. destruct (N.eqb_spec k k') as [->|Hne].
  - destruct (m !! k') eqn:E; [by rewrite E|]. by rewrite lookup_insert_eq.
  - destruct (m !! k) eqn:E; [by destruct (m !! k')|].
    rewrite lookup_insert_ne by done. by destruct (m !! k').
Qed.

Lemma probe_head_fold_lookup head records rec_versions id :
  fold_left
    (λ rec_versions r,
       if fetchRecordVersion head (record_id r) <? record_version r
       then emplace (record_id r) 0 rec_versions
       else rec_versions)
    records rec_versions !! id =
  match rec_versions !! id with
  | Some v => Some v
  | None => if wanted head records id then Some 0 else None
  end.
Proof.
  revert rec_versions.
  induction records as [|r records IH]; intros rec_versions; simpl.
  - by destruct (rec_versions !! id).
  - rewrite IH. clear IH.
    destruct (fetchRecordVersion head (record_id r) <? record_version r);
      rewrite ?andb_true_r, ?andb_false_r; simpl; [|done].
    rewrite emplace_lookup.
    destruct (rec_versions !! id); [done|].
    by destruct (record_id r =? id).
Qed.

Lemma probe_head_lookup head records id :
  probe_head head records !! id =
  if wanted head records id then Some 0 else None.
Proof.
  unfold probe_head. by rewrite probe_head_fold_lookup, lookup_empty.
Qed.

Lemma probe_compacting_lookup snap rec_versions id :
  probe_compacting (compacting_arena snap) rec_versions !! id =
  (λ v, N.max v (compacting_version snap id)) <$> rec_versions !! id.
Proof.
  unfold probe_compacting, compacting_version.
  destruct (compacting_arena snap) as [arena|].
  - rewrite map_lookup_imap. destruct (rec_versions !! id) as [v|]; [|done].
    simpl. f_equal. destruct (N.ltb_spec v (fetchRecordVersion arena id)); lia.
  - destruct (rec_versions !! id) as [v|]; [|done].
    simpl. f_equal. lia.
Qed.

Lemma merge_index_lookup idx rec_versions id :
  merge_index idx rec_versions !! id =
  (λ v, N.max v (default 0 (idx !! id))) <$> rec_versions !! id.
Proof.
  unfold merge_index. rewrite map_lookup_imap.
  destruct (rec_versions !! id) as [v|]; [|done]. simpl. f_equal.
  destruct (idx !! id); simpl; lia.
Qed.

Lemma tables_version_app d base l1 l2 id :
  tables_version d base (l1 ++ l2) id =
  N.max (tables_version d base l1 id) (tables_version d base l2 id).
Proof.
  induction l1 as [|tbl l1 IH]; simpl; [lia|]. rewrite IH. lia.
Qed.

Lemma tables_version_rev d base l id :
  tables_version d base (rev l) id = tables_version d base l id.
Proof.
  induction l as [|tbl l IH]; simpl; [done|].
  rewrite tables_version_app, IH. simpl. lia.
Qed.

Lemma indexed_rev d base l : indexed d base (rev l) = indexed d base l.
Proof.
  unfold indexed. induction l as [|tbl l IH]; simpl; [done|].
  rewrite forallb_app, IH. simpl. rewrite andb_true_r. apply andb_comm.
Qed.

Lemma probe_tables_lookup d base tables rec_versions :
  indexed d base tables = true →
  ∃ rec_versions',
    probe_tables d base tables rec_versions = inr rec_versions' ∧
    ∀ id, rec_versions' !! id =
          (λ v, N.max v (tables_version d base tables id))
            <$> rec_versions !! id.
Proof.
  revert rec_versions.
  induction tables as [|tbl tables IH]; intros rec_versions; simpl.
  - intros _. exists rec_versions. split; [done|]. intros id.
    destruct (rec_versions !! id); simpl; [f_equal; lia|done].
  - intros [Htbl Hrest]%andb_true_iff.
    apply bool_decide_eq_true in Htbl as [idx Hidx].
    unfold RecordVersionMap_lookup. rewrite Hidx.
    destruct (IH (merge_index idx rec_versions) Hrest) as (rv & -> & Hrv).
    exists rv. split; [done|]. intros id.
    rewrite Hrv, merge_index_lookup. unfold index_version. rewrite Hidx.
    destruct (rec_versions !! id); simpl; [f_equal; lia|done].
Qed.

(** After the three probes, an id has an entry exactly when it is
    [wanted], and the entry is the highest version below the head arena. *)
Lemma probes_lookup w records :
  tables_indexed w = true →
  ∃ rec_versions,
    probe_tables (disk w) (base_path (head_ w)) (rev (lsm_tables (head_ w)))
      (probe_compacting (compacting_arena (head_ w))
         (probe_head (head_arena (head_ w)) records)) = inr rec_versions ∧
    ∀ id, rec_versions !! id =
          if wanted (head_arena (head_ w)) records id
          then Some (flushed_version w id) else None.
Proof.
  intros Hidx.
  destruct (probe_tables_lookup (disk w) (base_path (head_ w))
              (rev (lsm_tables (head_ w)))
              (probe_compacting (compacting_arena (head_ w))
                 (probe_head (head_arena (head_ w)) records)))
    as (rv & Hrv & Hlook).
  { by rewrite indexed_rev. }
  exists rv. split; [done|]. intros id.
  rewrite Hlook, probe_compacting_lookup, probe_head_lookup, tables_version_rev.
  destruct (wanted _ _ _); [|done]. simpl. f_equal.
  unfold flushed_version, disk_version. lia.
Qed.

(** ** The insert loop against the specification's rule *)

Lemma set_is_update_same r : set_is_update (is_update r) r = r.
Proof. by destruct r. Qed.

Lemma fetchRecordVersion_insert head r id :
  fetchRecordVersion (<[record_id r := r]> head) id =
  if record_id r =? id then record_version r else fetchRecordVersion head id.
Proof.
  unfold fetchRecordVersion. destruct (N.eqb_spec (record_id r) id) as [->|Hne].
  - by rewrite lookup_insert_eq.
  - by rewrite lookup_insert_ne.
Qed.

(** [rec_versions[id]] reads what a lookup with default 0 reads, and leaves
    every such read as it was. *)
Lemma subscript_default id rec_versions :
  (subscript id rec_versions).1 = default 0 (rec_versions !! id) ∧
  ∀ id', default 0 ((subscript id rec_versions).2 !! id') =
         default 0 (rec_versions !! id').
Proof.
  unfold subscript. destruct (rec_versions !! id) eqn:E; simpl.
  - done.
  - split; [done|]. intros id'. destruct (decide (id = id')) as [<-|Hne].
    + by rewrite lookup_insert_eq, E.
    + by rewrite lookup_insert_ne.
Qed.

Lemma insert_one_retain w rec_versions head inserted_ids r :
  entry_ok w rec_versions head r →
  insert_one (rec_versions, head, inserted_ids) r =
  ((subscript (record_id r) rec_versions).2,
   (retain w (head, inserted_ids) r).1,
   (retain w (head, inserted_ids) r).2).
Proof.
  intros Hok. unfold insert_one, retain, known_version.
  destruct (subscript_default (record_id r) rec_versions) as [Hv _].
  destruct (subscript (record_id r) rec_versions) as [headv rv'].
  simpl in Hv. simpl. subst headv.
  unfold entry_ok in Hok.
  remember (flushed_version w (record_id r)) as F eqn:EF. clear EF.
  remember (default 0 (rec_versions !! record_id r)) as headv eqn:Ev.
  clear Ev. destruct Hok as [->|[-> Hstale]].
  - (* the entry is the flushed version *)
    assert (Hr' : (if 0 <? F then set_is_update true r else r) =
                  set_is_update (is_update r || (0 <? F)) r).
    { destruct (0 <? F); [by rewrite orb_true_r|].
      by rewrite orb_false_r, set_is_update_same. }
    rewrite Hr'. simpl.
    destruct (N.leb_spec (record_version r) F) as [Hle|Hgt].
    + destruct (N.ltb_spec
                  (N.max (fetchRecordVersion head (record_id r)) F)
                  (record_version r)); [lia|done].
    + unfold insertRecord, fetchRecordVersion. simpl.
      destruct (head !! record_id r) as [old|] eqn:Eold.
      * destruct (N.ltb_spec (record_version old) (record_version r)).
        -- destruct (N.ltb_spec (N.max (record_version old) F)
                       (record_version r)); [done|lia].
        -- destruct (N.ltb_spec (N.max (record_version old) F)
                       (record_version r)); [lia|done].
      * destruct (N.ltb_spec (N.max 0 F) (record_version r)); [done|lia].
  - (* no entry, and the head arena is not older than the record *)
    simpl.
    destruct (N.ltb_spec
                (N.max (fetchRecordVersion head (record_id r)) F)
                (record_version r)); [lia|].
    destruct (N.leb_spec (record_version r) 0) as [Hle|Hgt]; [done|].
    unfold insertRecord. unfold fetchRecordVersion in Hstale.
    destruct (head !! record_id r) as [old|]; [|lia].
    destruct (N.ltb_spec (record_version old) (record_version r)); [lia|done].
Qed.

(** The head arena's versions never go down under [retain]. *)
Lemma retain_head_mono w head inserted_ids r id :
  fetchRecordVersion head id ≤
  fetchRecordVersion (retain w (head, inserted_ids) r).1 id.
Proof.
  unfold retain, known_version.
  destruct (N.ltb_spec
              (N.max (fetchRecordVersion head (record_id r))
                 (flushed_version w (record_id r)))
              (record_version r)) as [Hlt|Hge]; simpl; [|lia].
  rewrite (fetchRecordVersion_insert head
             (set_is_update _ r) id). simpl.
  destruct (N.eqb_spec (record_id r) id) as [<-|_]; lia.
Qed.

Lemma insert_loop_retain w records rec_versions head inserted_ids :
  (∀ r, r ∈ records → entry_ok w rec_versions head r) →
  ∃ rec_versions',
    fold_left insert_one records (rec_versions, head, inserted_ids) =
    (rec_versions',
     (fold_left (retain w) records (head, inserted_ids)).1,
     (fold_left (retain w) records (head, inserted_ids)).2).
Proof.
  revert rec_versions head inserted_ids.
  induction records as [|r records IH]; intros rec_versions head ids Hok.
  - by exists rec_versions.
  - cbn [fold_left]. rewrite (insert_one_retain w) by (apply Hok; left).
    destruct (retain w (head, ids) r) as [head1 ids1] eqn:Estep.
    cbn [fst snd].
    apply IH. intros r' Hin.
    destruct (subscript_default (record_id r) rec_versions) as [_ Hsame].
    unfold entry_ok. rewrite Hsame.
    pose proof (retain_head_mono w head ids r (record_id r')) as Hmono.
    rewrite Estep in Hmono. simpl in Hmono.
    destruct (Hok r') as [Hflushed|[Hzero Hstale]]; [by right| |].
    + by left.
    + right. split; [done|]. lia.
Qed.

(** A batch of records none of which is above the head arena leaves
    everything as it is. *)
Lemma retain_stale w records head inserted_ids :
  (∀ r, r ∈ records →
        record_version r ≤ fetchRecordVersion head (record_id r)) →
  fold_left (retain w) records (head, inserted_ids) = (head, inserted_ids).
Proof.
  induction records as [|r records IH]; intros Hstale; [done|].
  cbn [fold_left]. unfold retain at 2, known_version.
  pose proof (Hstale r ltac:(left)) as Hr.
  destruct (N.ltb_spec
              (N.max (fetchRecordVersion head (record_id r))
                 (flushed_version w (record_id r)))
              (record_version r)) as [Hlt|Hge]; [lia|].
  apply IH. intros r' Hin. apply Hstale. by right.
Qed.

Lemma set_head_arena_same w :
  setSnapshot (set_head_arena (head_arena (head_ w)) (head_ w)) w = w.
Proof. destruct w as [f [b h c t] d]. reflexivity. Qed.

(** [insertRecords] on a writer that is not frozen and whose tables have
    their sidecars: it returns, the ids and the head arena are those of
    [retain_all], and nothing else of the writer changes. *)
Lemma insertRecords_retain_all w records :
  frozen_ w = false →
  tables_indexed w = true →
  insertRecords records w =
  inr ((retain_all w records).2,
       setSnapshot (set_head_arena (retain_all w records).1 (head_ w)) w).
Proof.
  intros Hfrozen Hidx. unfold insertRecords. rewrite Hfrozen.
  destruct (probes_lookup w records Hidx) as (rv & -> & Hrv).
  assert (Hok : ∀ r, r ∈ records →
                  entry_ok w rv (head_arena (head_ w)) r).
  { intros r Hin. unfold entry_ok. rewrite Hrv.
    destruct (wanted _ _ _) eqn:Ew; [by left|right].
    split; [done|]. by eapply wanted_false. }
  unfold retain_all. destruct (decide (rv = ∅)) as [->|Hne].
  - rewrite retain_stale.
    + simpl. by rewrite set_head_arena_same.
    + intros r Hin. destruct (Hok r Hin) as [Hfl|[_ Hst]]; [|done].
      pose proof (Hrv (record_id r)) as Hlook. rewrite lookup_empty in Hlook.
      destruct (wanted _ _ _) eqn:Ew; [done|]. by eapply wanted_false.
  - destruct (insert_loop_retain w records rv (head_arena (head_ w)) ∅ Hok)
      as (rv' & ->).
    done.
Qed.

(** ** insertRecords: retention by version (C1, C2) *)

(** C1, as amended.  On a writer that is not frozen (and whose tables have
    their sidecar indexes), [insertRecords] returns, and decides every
    record of the batch in turn by [retain]: the known version of the
    record's id is the highest among the head arena (as the earlier records
    of the batch left it), the compacting arena if present and the on-disk
    sidecar indexes; the record is put into the head arena, and its id into
    the returned set, exactly when its version is strictly greater than the
    known one; and the retained record has [is_update] set when a non-zero
    version of it is in the compacting arena or in a sidecar index (a
    version that is only in the head arena does not set it).  For a batch of
    one record above its known version this gives the writer explicitly.
    In particular, inserting (id 1, v 5), (id 1, v 3), (id 2, v 1) into an
    empty partition returns the ids 1 and 2. *)
Theorem insertRecords_known_version w records :
  frozen_ w = false →
  tables_indexed w = true →
  insertRecords records w =
    inr ((retain_all w records).2,
         setSnapshot (set_head_arena (retain_all w records).1 (head_ w)) w)
  ∧ (∀ r,
       known_version w (head_arena (head_ w)) (record_id r)
         < record_version r →
       insertRecords [r] w =
         inr ({[record_id r]},
              setSnapshot
                (set_head_arena
                   (<[record_id r :=
                        set_is_update
                          (is_update r
                           || (0 <? flushed_version w (record_id r))) r]>
                      (head_arena (head_ w)))
                   (head_ w)) w))
  ∧ (∀ base d p1 p2 p3 u1 u2 u3,
       ∃ w',
         insertRecords
           [mkRecordRef 1 5 p1 u1; mkRecordRef 1 3 p2 u2;
            mkRecordRef 2 1 p3 u3]
           (empty_partition base d) = inr ({[1; 2]}, w')).
Proof.
  intros Hfrozen Hidx. split; [|split].
  - by apply insertRecords_retain_all.
  - intros r Hlt. rewrite insertRecords_retain_all by done.
    unfold retain_all. cbn [fold_left]. unfold retain.
    apply N.ltb_lt in Hlt. rewrite Hlt. cbn [fst snd].
    by rewrite (right_id_L ∅ (∪)).
  - intros base d p1 p2 p3 u1 u2 u3. eexists.
    rewrite insertRecords_retain_all by reflexivity.
    vm_compute. reflexivity.
Qed.

Lemma retain_stale_one w head inserted_ids r :
  record_version r ≤ known_version w head (record_id r) →
  retain w (head, inserted_ids) r = (head, inserted_ids).
Proof.
  intros Hle. unfold retain.
  by destruct (N.ltb_spec (known_version w head (record_id r))
                 (record_version r)); [lia|].
Qed.

Lemma known_version_set_head_arena w a head id :
  known_version (setSnapshot (set_head_arena a (head_ w)) w) head id =
  known_version w head id.
Proof. reflexivity. Qed.

(** C2, as amended.  A record whose version is not above the known version
    of its id - known to the writer as the records before it in the batch
    left it - has no effect: the call returns the same ids and the same
    writer (so the same head arena, with the same size counter) as the call
    without that record.  Its id is in the returned set only on account of
    another record of the batch.  In particular a call with one such record
    returns the empty set and leaves the writer as it was. *)
Theorem insertRecords_stale_noop w pre r post :
  frozen_ w = false →
  tables_indexed w = true →
  (∃ ids1 w1,
     insertRecords pre w = inr (ids1, w1) ∧
     ((record_version r
         ≤ known_version w1 (head_arena (head_ w1)) (record_id r)) →
      insertRecords (pre ++ [r]) w = inr (ids1, w1) ∧
      insertRecords (pre ++ r :: post) w = insertRecords (pre ++ post) w))
  ∧ ((record_version r
        ≤ known_version w (head_arena (head_ w)) (record_id r)) →
     insertRecords [r] w = inr (∅, w) ∧
     ∀ ids' w', insertRecords [r] w = inr (ids', w') →
       (record_id r ∉ ids') ∧
       head_arena (head_ w') = head_arena (head_ w) ∧
       arena_size (head_arena (head_ w')) = arena_size (head_arena (head_ w))).
Proof.
  intros Hfrozen Hidx.
  assert (Hone : (record_version r
                    ≤ known_version w (head_arena (head_ w)) (record_id r)) →
                 insertRecords [r] w = inr (∅, w)).
  { intros Hle. rewrite insertRecords_retain_all by done.
    unfold retain_all. cbn [fold_left]. rewrite retain_stale_one by done.
    cbn [fst snd]. by rewrite set_head_arena_same. }
  split.
  - eexists _, _. split; [by apply insertRecords_retain_all|].
    cbn [head_ setSnapshot head_arena set_head_arena].
    rewrite known_version_set_head_arena. intros Hle.
    rewrite !insertRecords_retain_all by done. unfold retain_all.
    rewrite !fold_left_app. cbn [fold_left].
    destruct (fold_left (retain w) pre (head_arena (head_ w), ∅))
      as [head1 ids1] eqn:Epre.
    unfold retain_all in Hle. rewrite Epre in Hle. cbn [fst snd] in Hle.
    by rewrite retain_stale_one.
  - intros Hle. split; [by apply Hone|].
    intros ids' w'. rewrite Hone by done. intros [= <- <-].
    split; [set_solver|done].
Qed.

(** ** commit (C3, C9) *)

Lemma shred_fold_decodable records rows vmap :
  forallb
    (λ r, match decode (record r) with inl _ => false | inr _ => true end)
    records = true →
  ∃ rows',
    fold_left shred_one records (inr (rows, vmap)) =
      inr (rows ++ rows',
           fold_left (λ vmap r, emplace (record_id r) (record_version r) vmap)
             records vmap) ∧
    Forall2 row_of records rows'.
Proof.
  revert rows vmap.
  induction records as [|r records IH]; intros rows vmap; simpl.
  - intros _. exists []. by rewrite app_nil_r.
  - intros [Hr Hrest]%andb_true_iff.
    destruct (decode (record r)) as [e|obj] eqn:Hdec; [done|].
    destruct (IH (rows ++ [mkRow obj (is_update r)
                             (SHA1Hash_toString (record_id r))
                             (record_version r)])
                (emplace (record_id r) (record_version r) vmap) Hrest)
      as (rows' & -> & Hrows).
    eexists (_ :: rows'). split.
    + by rewrite <- app_assoc.
    + by constructor.
Qed.

Lemma emplace_fold_lookup records (vmap : gmap N N) id :
  fold_left (λ vmap r, emplace (record_id r) (record_version r) vmap)
    records vmap !! id =
  match vmap !! id with
  | Some v => Some v
  | None => first_version records id
  end.
Proof.
  revert vmap. induction records as [|r records IH]; intros vmap; simpl.
  - by destruct (vmap !! id).
  - rewrite IH, emplace_lookup. destruct (vmap !! id); [done|].
    by destruct (record_id r =? id).
Qed.

Lemma first_version_Some records id v :
  first_version records id = Some v →
  ∃ r, r ∈ records ∧ record_id r = id ∧ record_version r = v.
Proof.
  induction records as [|r records IH]; simpl; [done|].
  destruct (N.eqb_spec (record_id r) id) as [Hid|_].
  - intros [= <-]. exists r. split; [left|done].
  - intros (r' & Hin & Hr')%IH. exists r'. split; [by right|done].
Qed.

Lemma first_version_None records id r :
  first_version records id = None → r ∈ records → record_id r ≠ id.
Proof.
  induction records as [|r' records IH]; simpl.
  - intros _ Hin. by apply elem_of_nil in Hin.
  - destruct (N.eqb_spec (record_id r') id) as [|Hne]; [done|].
    intros Hnone [->|Hin]%elem_of_cons; [done|by apply IH].
Qed.

Lemma elem_of_fetchRecords arena r :
  r ∈ fetchRecords arena ↔ ∃ id, arena !! id = Some r.
Proof.
  unfold fetchRecords. rewrite list_elem_of_fmap. split.
  - intros ([id r'] & -> & Hin). exists id. by apply elem_of_map_to_list.
  - intros [id Hid]. exists (id, r). split; [done|].
    by apply elem_of_map_to_list.
Qed.

(** The sidecar of an arena whose records are filed under their ids is
    the version of every record. *)
Lemma first_version_fetchRecords arena id :
  arena_wf arena →
  first_version (fetchRecords arena) id = record_version <$> arena !! id.
Proof.
  intros Hwf. destruct (first_version (fetchRecords arena) id) as [v|] eqn:Hv.
  - apply first_version_Some in Hv as (r & Hin & Hid & <-).
    apply elem_of_fetchRecords in Hin as [id' Hr].
    rewrite (Hwf _ _ Hr) in Hid. subst id'. by rewrite Hr.
  - destruct (arena !! id) as [r|] eqn:Hr; [|done].
    exfalso. eapply first_version_None; [done| |by apply (Hwf id)].
    apply elem_of_fetchRecords. by exists id.
Qed.

Lemma arena_wf_empty : arena_wf ∅.
Proof. intros id r Hr. by rewrite lookup_empty in Hr. Qed.

Lemma arena_wf_insertRecord r arena :
  arena_wf arena → arena_wf (insertRecord r arena).2.
Proof.
  intros Hwf. unfold insertRecord.
  assert (Hins : arena_wf (<[record_id r := r]> arena)).
  { intros id r' Hr'. destruct (decide (record_id r = id)) as [<-|Hne].
    - rewrite lookup_insert_eq in Hr'. by injection Hr' as <-.
    - rewrite lookup_insert_ne in Hr' by done. by apply Hwf. }
  destruct (arena !! record_id r) as [old|]; [|done].
  by destruct (record_version old <? record_version r).
Qed.

(** An arena whose records decode is written out: in the [.cst] file one
    row per record, carrying its message and the three extension columns;
    next to it the [.idx] file, which for an arena filed by id holds the
    version of every record. *)
Lemma writeArenaToDisk_decodable arena file d :
  decodable arena = true →
  ∃ rows vmap,
    writeArenaToDisk arena file d =
      inr {| idx_files := <[file +:+ ".idx" := vmap]> (idx_files d);
             cst_files := <[file +:+ ".cst" := rows]> (cst_files d);
             snapshot_file := snapshot_file d |} ∧
    Forall2 row_of (fetchRecords arena) rows ∧
    length rows = arena_size arena ∧
    (arena_wf arena → vmap = versions_of arena).
Proof.
  intros Hdec. unfold writeArenaToDisk.
  destruct (shred_fold_decodable (fetchRecords arena) [] ∅ Hdec)
    as (rows & -> & Hrows).
  eexists rows, _. split; [done|]. split; [done|]. split.
  - rewrite <- (Forall2_length _ _ _ Hrows).
    unfold fetchRecords, arena_size.
    by rewrite length_fmap, length_map_to_list.
  - intros Hwf. apply map_eq. intros id.
    rewrite emplace_fold_lookup, lookup_empty.
    rewrite first_version_fetchRecords by done.
    unfold versions_of. by rewrite lookup_fmap.
Qed.

Lemma writeArenaToDisk_files arena file d d' :
  writeArenaToDisk arena file d = inr d' →
  is_Some (idx_files d' !! (file +:+ ".idx")) ∧
  is_Some (cst_files d' !! (file +:+ ".cst")) ∧
  snapshot_file d' = snapshot_file d.
Proof.
  unfold writeArenaToDisk.
  destruct (fold_left shred_one _ _) as [e|[rows vmap]]; [done|].
  intros [= <-]. simpl. by rewrite !lookup_insert_eq.
Qed.

(** C3.  A commit that finds no compacting arena and a head arena with
    records: the flip phase publishes a snapshot whose compacting arena is
    the former head arena and whose head arena is empty; the commit
    completes when the records decode; and when it completes, the published
    snapshot has no compacting arena, and its table list is the previous
    one with exactly one table appended at the end, named as the flushed
    files are. *)
Theorem commit_flips_flushes_installs w filename :
  compacting_arena (head_ w) = None →
  (0 < arena_size (head_arena (head_ w)))%nat →
  (∃ w1,
     commit_flip w = (Some (head_arena (head_ w)), w1) ∧
     compacting_arena (head_ w1) = Some (head_arena (head_ w)) ∧
     head_arena (head_ w1) = ∅ ∧
     lsm_tables (head_ w1) = lsm_tables (head_ w))
  ∧ (decodable (head_arena (head_ w)) = true →
     ∃ w', commit filename w = (None, w'))
  ∧ (∀ w', commit filename w = (None, w') →
     compacting_arena (head_ w') = None ∧
     lsm_tables (head_ w') =
       lsm_tables (head_ w) ++ [mkLSMTableRef filename] ∧
     snapshot_file (disk w') = Some (lsm_tables (head_ w')) ∧
     is_Some (idx_files (disk w')
                !! (joinPaths (base_path (head_ w)) filename +:+ ".idx")) ∧
     is_Some (cst_files (disk w')
                !! (joinPaths (base_path (head_ w)) filename +:+ ".cst"))).
Proof.
  intros Hnull Hsize.
  assert (Hflip : commit_flip w =
    (Some (head_arena (head_ w)),
     setSnapshot
       {| base_path := base_path (head_ w); head_arena := ∅;
          compacting_arena := Some (head_arena (head_ w));
          lsm_tables := lsm_tables (head_ w) |} w)).
  { unfold commit_flip. rewrite Hnull. simpl.
    by rewrite bool_decide_eq_true_2. }
  split; [|split].
  - eexists. by split; [apply Hflip|].
  - intros Hdec. unfold commit. rewrite Hflip.
    rewrite bool_decide_eq_true_2 by done. unfold commit_flush.
    destruct (writeArenaToDisk_decodable (head_arena (head_ w))
                (joinPaths (base_path (head_ w)) filename) (disk w) Hdec)
      as (rows & vmap & Hwrite & _).
    simpl. rewrite Hwrite. by eexists.
  - intros w'. unfold commit. rewrite Hflip.
    rewrite bool_decide_eq_true_2 by done. unfold commit_flush. simpl.
    destruct (writeArenaToDisk _ _ _) as [e|d'] eqn:Hwrite; [done|].
    intros [= <-]. simpl.
    apply writeArenaToDisk_files in Hwrite as (Hidx & Hcst & _).
    done.
Qed.

(** C9.  A commit that finds a compacting arena with records skips the
    flip: the writer stays as it is, head arena included, whatever the
    head arena holds.  The compacting arena it found is flushed all the
    same: when its records decode the commit completes, the files of a new
    table are written from that arena (one row per record; the sidecar
    holds the versions of the arena when it is filed by id), the table is
    appended to the list, and the published snapshot has no compacting
    arena. *)
Theorem commit_flushes_leftover_arena w filename leftover :
  compacting_arena (head_ w) = Some leftover →
  (0 < arena_size leftover)%nat →
  commit_flip w = (Some leftover, w)
  ∧ (decodable leftover = true →
     ∃ rows vmap,
       let file := joinPaths (base_path (head_ w)) filename in
       let tables := lsm_tables (head_ w) ++ [mkLSMTableRef filename] in
       Forall2 row_of (fetchRecords leftover) rows ∧
       length rows = arena_size leftover ∧
       (arena_wf leftover → vmap = versions_of leftover) ∧
       commit filename w =
         (None,
          {| frozen_ := frozen_ w;
             head_ :=
               {| base_path := base_path (head_ w);
                  head_arena := head_arena (head_ w);
                  compacting_arena := None;
                  lsm_tables := tables |};
             disk :=
               {| idx_files :=
                    <[file +:+ ".idx" := vmap]> (idx_files (disk w));
                  cst_files :=
                    <[file +:+ ".cst" := rows]> (cst_files (disk w));
                  snapshot_file := Some tables |} |})).
Proof.
  intros Hca Hsize.
  assert (Hflip : commit_flip w = (Some leftover, w)).
  { unfold commit_flip. by rewrite Hca. }
  split; [done|]. intros Hdec.
  destruct (writeArenaToDisk_decodable leftover
              (joinPaths (base_path (head_ w)) filename) (disk w) Hdec)
    as (rows & vmap & Hwrite & Hrows & Hlen & Hidx).
  exists rows, vmap. simpl.
  split; [done|]. split; [done|]. split; [done|].
  unfold commit. rewrite Hflip. rewrite bool_decide_eq_true_2 by done.
  unfold commit_flush. by rewrite Hwrite.
Qed.

(** ** compact (C4) *)

Lemma install_loop_outcome old_tables tables i new_tables :
  (install_loop old_tables tables i new_tables = inl compaction_aborted ∧
   ∃ j old tbl,
     old_tables !! (i + j)%nat = Some old ∧ tables !! j = Some tbl ∧
     filename old ≠ filename tbl)
  ∨
  (install_loop old_tables tables i new_tables =
     inr (new_tables ++ drop (length old_tables - i) tables) ∧
   ∀ j old tbl,
     old_tables !! (i + j)%nat = Some old → tables !! j = Some tbl →
     filename old = filename tbl).
Proof.
  revert i new_tables.
  induction tables as [|tbl tables IH]; intros i new_tables; simpl.
  - right. split; [by rewrite drop_nil, app_nil_r|]. intros j old tbl _ Hj.
    by rewrite lookup_nil in Hj.
  - destruct (old_tables !! i) as [old|] eqn:Hold.
    + pose proof (lookup_lt_Some _ _ _ Hold) as Hlt.
      destruct (decide (filename old = filename tbl)) as [Heq|Hne].
      * rewrite bool_decide_eq_false_2 by (by intros ?).
        destruct (IH (S i) new_tables)
          as [(-> & j & o & t & Ho & Ht & Hne)|(-> & Hall)].
        -- left. split; [done|]. exists (S j), o, t.
           split; [|done]. by replace (i + S j)%nat with (S i + j)%nat by lia.
        -- right. split.
           ++ replace (length old_tables - i)%nat
                with (S (length old_tables - S i)) by lia.
              done.
           ++ intros [|j] o t Ho Ht.
              ** rewrite Nat.add_0_r in Ho. simpl in Ht. congruence.
              ** apply (Hall j); [|done].
                 by replace (S i + j)%nat with (i + S j)%nat by lia.
      * rewrite bool_decide_eq_true_2 by done.
        left. split; [done|]. exists 0%nat, old, tbl.
        by rewrite Nat.add_0_r.
    + pose proof (lookup_ge_None_1 _ _ Hold) as Hge.
      destruct (IH (S i) (new_tables ++ [tbl]))
        as [(_ & j & o & t & Ho & _)|(-> & Hall)].
      * apply lookup_lt_Some in Ho. lia.
      * right. split.
        -- replace (length old_tables - i)%nat with 0%nat by lia.
           replace (length old_tables - S i)%nat with 0%nat by lia.
           simpl. by rewrite <- app_assoc.
        -- intros j o t Ho. apply lookup_lt_Some in Ho. lia.
Qed.

(** C4.  The install step of [compact], entered with the captured list
    [old_tables] and the compacted list [new_tables], on whatever writer it
    finds: it raises - and then the ConcurrentModification error, leaving
    the writer as it was - if and only if the current table list is shorter
    than [old_tables] or names one of its first [length old_tables] tables
    otherwise than [old_tables] does; when it does not raise, the published
    list is [new_tables] followed by the tables found beyond
    [length old_tables], and nothing else of the snapshot changes.
    [compact] runs this step on the list it captured after its commit. *)
Theorem compact_install_concurrent_modification old_tables new_tables w :
  ((∃ e, (compact_install old_tables new_tables w).1 = Some e) ↔
   (length (lsm_tables (head_ w)) < length old_tables)%nat ∨
   prefix_renamed old_tables (lsm_tables (head_ w)))
  ∧ (∀ e w', compact_install old_tables new_tables w = (Some e, w') →
       etype e = kConcurrentModificationError ∧ w' = w)
  ∧ (∀ w', compact_install old_tables new_tables w = (None, w') →
       lsm_tables (head_ w') =
         new_tables ++ drop (length old_tables) (lsm_tables (head_ w)) ∧
       head_arena (head_ w') = head_arena (head_ w) ∧
       compacting_arena (head_ w') = compacting_arena (head_ w) ∧
       base_path (head_ w') = base_path (head_ w) ∧
       snapshot_file (disk w') = Some (lsm_tables (head_ w')))
  ∧ (∀ filename others w0 w1,
       commit filename w0 = (None, w1) →
       compact filename others w0 =
         compact_install (lsm_tables (head_ w1)) (lsm_tables (head_ w1))
           (others w1)).
Proof.
  unfold compact_install.
  destruct (Nat.ltb_spec (length (lsm_tables (head_ w))) (length old_tables))
    as [Hshort|Hlong].
  { split; [|split; [|split]].
    - simpl. split; [by left|by eexists].
    - by intros e w' [= <- <-].
    - intros w' [=].
    - intros filename others w0 w1 Hc. unfold compact. by rewrite Hc. }
  destruct (install_loop_outcome old_tables (lsm_tables (head_ w)) 0 new_tables)
    as [(-> & j & o & t & Ho & Ht & Hne)|(-> & Hall)].
  - split; [|split; [|split]].
    + simpl. split; [|by eexists]. intros _. right. by exists j, o, t.
    + by intros e w' [= <- <-].
    + intros w' [=].
    + intros filename others w0 w1 Hc. unfold compact. by rewrite Hc.
  - rewrite Nat.sub_0_r. split; [|split; [|split]].
    + simpl. split; [by intros [e [=]]|].
      intros [Hshort|(i & o & t & Ho & Ht & Hne)]; [lia|].
      destruct Hne. by apply (Hall i).
    + intros e w' [=].
    + by intros w' [= <-].
    + intros filename others w0 w1 Hc. unfold compact. by rewrite Hc.
Qed.

End LSMPartitionWriter_properties.

(** ** The same, at concrete writers *)

Lemma insertRecords_known_version_witness :
  frozen_ sample_writer = false ∧
  tables_indexed sample_writer = true ∧
  insertRecords
    [mkRecordRef 1 5 "x" false; mkRecordRef 2 3 "y" false;
     mkRecordRef 3 10 "z" false] sample_writer =
  inr ({[1; 3]},
       setSnapshot
         (set_head_arena
            {[ 1 := mkRecordRef 1 5 "x" false;
               3 := mkRecordRef 3 10 "z" true ]}
            (head_ sample_writer)) sample_writer).
Proof.
  split; [reflexivity|]. split; [reflexivity|].
  etrans.
  - apply (insertRecords_known_version sample_writer); reflexivity.
  - vm_compute. reflexivity.
Defined.

(** C1 as stated fails in its clause on [is_update]: the record (id 1,
    v 5) is retained over version 4, which the head arena holds, and yet
    is stored with [is_update] false. *)
Lemma is_update_ignores_head_arena :
  ¬ (∀ (w : @Writer plain_storage) r ids w',
       insertRecords [r] w = inr (ids, w') →
       record_id r ∈ ids →
       0 < known_version w (head_arena (head_ w)) (record_id r) →
       is_update <$> head_arena (head_ w') !! record_id r = Some true).
Proof.
  intros Hclaim.
  specialize (Hclaim sample_writer (mkRecordRef 1 5 "x" false) {[1]}
    (setSnapshot
       (set_head_arena {[ 1 := mkRecordRef 1 5 "x" false ]}
          (head_ sample_writer)) sample_writer)).
  assert (Hfalse :
    is_update <$>
      ({[ 1 := mkRecordRef 1 5 "x" false ]} : gmap N RecordRef) !! 1
    = Some true).
  { apply Hclaim.
    - vm_compute. reflexivity.
    - simpl. set_solver.
    - vm_compute. reflexivity. }
  vm_compute in Hfalse. discriminate.
Qed.


Lemma insertRecords_stale_noop_witness :
  frozen_ sample_writer = false ∧
  tables_indexed sample_writer = true ∧
  insertRecords [mkRecordRef 3 9 "z" false] sample_writer =
    inr (∅, sample_writer).
Proof.
  split; [reflexivity|]. split; [reflexivity|].
  apply (insertRecords_stale_noop sample_writer []
           (mkRecordRef 3 9 "z" false) []); [reflexivity..|].
  vm_compute. discriminate.
Defined.

(** C2 as stated fails in its clause on the returned set: in the batch
    (id 1, v 3), (id 1, v 7) the first record is not above version 4, which
    the head arena holds, and yet id 1 is returned, on account of the
    second record. *)
Lemma stale_record_id_returned :
  ¬ (∀ (w : @Writer plain_storage) records r ids w',
       insertRecords records w = inr (ids, w') →
       r ∈ records →
       record_version r
         ≤ known_version w (head_arena (head_ w)) (record_id r) →
       record_id r ∉ ids).
Proof.
  intros Hclaim.
  apply (Hclaim sample_writer
           [mkRecordRef 1 3 "x" false; mkRecordRef 1 7 "y" false]
           (mkRecordRef 1 3 "x" false) {[1]}
           (setSnapshot
              (set_head_arena {[ 1 := mkRecordRef 1 7 "y" false ]}
                 (head_ sample_writer)) sample_writer)).
  - vm_compute. reflexivity.
  - left.
  - vm_compute. discriminate.
  - set_solver.
Qed.

Lemma commit_flips_flushes_installs_witness :
  compacting_arena (head_ pending_writer) = None ∧
  (0 < arena_size (head_arena (head_ pending_writer)))%nat ∧
  ∃ w',
    commit "1f" pending_writer = (None, w') ∧
    compacting_arena (head_ w') = None ∧
    lsm_tables (head_ w') = [mkLSMTableRef "1f"].
Proof.
  split; [reflexivity|]. split; [vm_compute; lia|].
  destruct (commit_flips_flushes_installs pending_writer "1f")
    as (_ & Hcompletes & Hafter); [reflexivity|vm_compute; lia|].
  destruct (Hcompletes eq_refl) as [w' Hcommit].
  exists w'. split; [exact Hcommit|].
  destruct (Hafter w' Hcommit) as (Hnull & Htables & _).
  split; [exact Hnull|exact Htables].
Defined.

Lemma commit_flushes_leftover_arena_witness :
  compacting_arena (head_ sample_writer) = Some flushing_arena ∧
  (0 < arena_size flushing_arena)%nat ∧
  commit_flip sample_writer = (Some flushing_arena, sample_writer) ∧
  ∃ w',
    commit "2f" sample_writer = (None, w') ∧
    head_arena (head_ w') = head_arena (head_ sample_writer) ∧
    compacting_arena (head_ w') = None ∧
    lsm_tables (head_ w') = [mkLSMTableRef "t1"; mkLSMTableRef "2f"].
Proof.
  split; [reflexivity|]. split; [vm_compute; lia|].
  destruct (commit_flushes_leftover_arena sample_writer "2f" flushing_arena)
    as (Hflip & Hflush); [reflexivity|vm_compute; lia|].
  split; [exact Hflip|].
  destruct (Hflush eq_refl) as (rows & vmap & _ & _ & _ & Hcommit).
  eexists. split; [exact Hcommit|]. repeat split.
Defined.

(** * Properties of the reduce task *)

Section ReduceTask_properties.
Context `{ClusterEnv}.

Implicit Types (t : ReduceTask) (shards : list MapReduceTaskShard).
Implicit Types (sources : list MapReduceTask) (net : Net).
Implicit Types (hosts : list ReplicaRef) (errors : list string).

(** ** build: the shape of the result (C6) *)

Lemma build_sources_acc sources in_indexes shards :
  fold_left
    (λ '(in_indexes, shards) src,
       let '(src_indexes, shards) := build src shards in
       (in_indexes ++ src_indexes, shards))
    sources (in_indexes, shards) =
  (in_indexes ++ (build_in_order sources shards).1,
   (build_in_order sources shards).2).
Proof.
  revert in_indexes shards.
  induction sources as [|src sources IH]; intros in_indexes shards; simpl.
  - by rewrite app_nil_r.
  - destruct (build src shards) as [src_indexes shards1].
    rewrite IH. destruct (build_in_order sources shards1) as [ixs shards2].
    simpl. by rewrite app_assoc.
Qed.

Lemma build_sources_in_order sources shards :
  build_sources sources shards = build_in_order sources shards.
Proof.
  unfold build_sources. rewrite build_sources_acc.
  by destruct (build_in_order sources shards).
Qed.

Lemma alloc_shards_closed this in_indexes n out_indexes shards :
  alloc_shards this in_indexes n out_indexes shards =
  (out_indexes ++ seq (length shards) n,
   shards ++ replicate n {| task := this; dependencies := in_indexes |}).
Proof.
  revert out_indexes shards.
  induction n as [|n IH]; intros out_indexes shards; simpl.
  - by rewrite !app_nil_r.
  - rewrite IH, length_app. simpl.
    rewrite <- !app_assoc. simpl.
    by replace (length shards + 1)%nat with (S (length shards)) by lia.
Qed.

Lemma ReduceTask_build_closed t shards :
  ReduceTask_build t shards =
  (seq (length (build_in_order (sources_ t) shards).2) (num_shards_ t),
   (build_in_order (sources_ t) shards).2
     ++ replicate (num_shards_ t)
          {| task := this t;
             dependencies := (build_in_order (sources_ t) shards).1 |}).
Proof.
  unfold ReduceTask_build. rewrite build_sources_in_order.
  destruct (build_in_order (sources_ t) shards) as [in_indexes built].
  by rewrite alloc_shards_closed.
Qed.

(** C6.  [build] of a reduce task with N shards builds its sources in
    order, collecting the indexes they return in one flat list, and then
    appends exactly N shards, each with that whole list as its
    dependencies; it returns the indexes of these N shards.  In particular,
    with three shards over two sources that produce two shards each, the
    source shards are at 0..3 and the reduce shards at 4..6, each depending
    on 0, 1, 2, 3. *)
Theorem ReduceTask_build_fan_in t shards :
  ReduceTask_build t shards =
    (seq (length (build_in_order (sources_ t) shards).2) (num_shards_ t),
     (build_in_order (sources_ t) shards).2
       ++ replicate (num_shards_ t)
            {| task := this t;
               dependencies := (build_in_order (sources_ t) shards).1 |})
  ∧ (∀ src1 src2 a b c d,
       sources_ t = [src1; src2] →
       num_shards_ t = 3%nat →
       build src1 [] = ([0; 1]%nat, [a; b]) →
       build src2 [a; b] = ([2; 3]%nat, [a; b; c; d]) →
       let reduce_shard :=
         {| task := this t; dependencies := [0; 1; 2; 3]%nat |} in
       ReduceTask_build t [] =
         ([4; 5; 6]%nat,
          [a; b; c; d; reduce_shard; reduce_shard; reduce_shard])).
Proof.
  split; [apply ReduceTask_build_closed|].
  intros src1 src2 a b c d Hsrc Hn H1 H2.
  rewrite ReduceTask_build_closed, Hsrc, Hn. simpl.
  by rewrite H1, H2.
Qed.

(** ** build: topological order (C5) *)

Lemma topological_nil : topological [].
Proof. intros i shard d Hi. by rewrite lookup_nil in Hi. Qed.

Lemma topological_snoc shards shard :
  topological shards →
  Forall (λ d, (d < length shards)%nat) (dependencies shard) →
  topological (shards ++ [shard]).
Proof.
  intros Htopo Hdeps i s d Hi Hd.
  destruct (decide (i < length shards)%nat) as [Hlt|Hge].
  - rewrite lookup_app_l in Hi by done. by eapply Htopo.
  - rewrite lookup_app_r in Hi by lia.
    apply list_lookup_singleton_Some in Hi as [Hi <-].
    rewrite Forall_forall in Hdeps. specialize (Hdeps d Hd). lia.
Qed.

Lemma topological_replicate shards shard n :
  topological shards →
  Forall (λ d, (d < length shards)%nat) (dependencies shard) →
  topological (shards ++ replicate n shard).
Proof.
  revert shards. induction n as [|n IH]; intros shards Htopo Hdeps; simpl.
  - by rewrite app_nil_r.
  - rewrite (cons_middle shard), app_assoc. apply IH.
    + by apply topological_snoc.
    + eapply Forall_impl; [done|]. intros d Hd. rewrite length_app.
      simpl in *. lia.
Qed.

Lemma build_in_order_well_built sources shards :
  Forall well_built sources →
  topological shards →
  topological (build_in_order sources shards).2 ∧
  (length shards ≤ length (build_in_order sources shards).2)%nat ∧
  Forall (λ i, (i < length (build_in_order sources shards).2)%nat)
    (build_in_order sources shards).1.
Proof.
  intros Hsources. revert shards.
  induction Hsources as [|src sources Hsrc _ IH]; intros shards Htopo; simpl.
  - by repeat split.
  - destruct (Hsrc shards Htopo) as (Htopo1 & Hlen1 & Hix1).
    destruct (build src shards) as [src_indexes shards1]. simpl in *.
    destruct (IH shards1 Htopo1) as (Htopo2 & Hlen2 & Hix2).
    destruct (build_in_order sources shards1) as [ixs shards2]. simpl in *.
    split; [done|]. split; [lia|]. apply Forall_app. split; [|done].
    eapply Forall_impl; [done|]. intros i Hi. simpl in Hi. lia.
Qed.

(** C5.  Invariant I6 for the lists [build] produces: when the sources of
    a reduce task keep what [build] promises, so does the reduce task - it
    leaves every shard list that is in topological order in topological
    order - and hence so does any nesting of reduce tasks; the list built
    from the empty list has every dependency index strictly below the index
    of the shard that carries it. *)
Theorem ReduceTask_build_topological t :
  Forall well_built (sources_ t) →
  well_built (ReduceTask_task t) ∧
  ∀ i shard d,
    (ReduceTask_build t []).2 !! i = Some shard →
    d ∈ dependencies shard → (d < i)%nat.
Proof.
  intros Hsources.
  assert (Hwb : well_built (ReduceTask_task t)).
  { intros shards Htopo. simpl. rewrite ReduceTask_build_closed.
    destruct (build_in_order_well_built (sources_ t) shards Hsources Htopo)
      as (Htopo1 & Hlen1 & Hix1).
    destruct (build_in_order (sources_ t) shards) as [in_indexes built].
    simpl in *. split; [|split].
    - by apply topological_replicate.
    - rewrite length_app. lia.
    - apply Forall_forall. intros i Hi. apply elem_of_seq in Hi.
      rewrite length_app, length_replicate. lia. }
  split; [done|].
  apply (Hwb [] topological_nil).
Qed.

(** ** executeRemote: the response decides (C8) *)

Lemma executeRemote_sent t input_tables host net net' outcome :
  executeRemote t input_tables host net = (net', outcome) →
  sent net' = sent net ++ [reduce_request t input_tables host] ∧
  error_log net' = error_log net.
Proof.
  unfold executeRemote, http_executeRequest.
  destruct (executeRequest _ _) as [w [e|res]].
  - by intros [= <- <-].
  - destruct (statusCode res =? 204); [by intros [= <- <-]|].
    destruct (negb (statusCode res =? 201)); by intros [= <- <-].
Qed.

(** C8.  When the request of [executeRemote] meets a response: status 204
    returns None; status 201 returns the host together with the hash that
    [fromHexString] decodes from the body; any other status raises a
    runtime error.  So [executeRemote] raises on a response if and only if
    its status is neither 201 nor 204. *)
Theorem executeRemote_by_status t input_tables host net w res :
  executeRequest (world net) (reduce_request t input_tables host)
    = (w, inr res) →
  let net' :=
    {| world := w;
       sent := sent net ++ [reduce_request t input_tables host];
       error_log := error_log net |} in
  (statusCode res = 204 →
   executeRemote t input_tables host net = (net', inr None))
  ∧ (statusCode res = 201 →
     executeRemote t input_tables host net =
       (net', inr (Some {| host := host;
                           result_id := fromHexString (body res) |})))
  ∧ (statusCode res ≠ 201 → statusCode res ≠ 204 →
     executeRemote t input_tables host net =
       (net', inl (RAISE kRuntimeError
                     ("received non-201 response: " +:+ body res))))
  ∧ ((∃ e, (executeRemote t input_tables host net).2 = inl e) ↔
     statusCode res ≠ 201 ∧ statusCode res ≠ 204).
Proof.
  intros Hreq net'. unfold executeRemote, http_executeRequest.
  rewrite Hreq. fold net'.
  destruct (N.eqb_spec (statusCode res) 204) as [E204|N204].
  { split; [done|]. split; [intros E; by rewrite E in E204|].
    split; [done|]. simpl. split; [by intros [e [=]]|].
    intros [_ ?]. done. }
  destruct (N.eqb_spec (statusCode res) 201) as [E201|N201]; simpl.
  - split; [done|]. split; [done|]. split; [done|].
    split; [by intros [e [=]]|]. intros [? _]. done.
  - split; [done|]. split; [done|]. split; [done|].
    split; [done|]. intros _. by eexists.
Qed.

(** ** execute: failover over the replicas (C7, C10) *)

Lemma all_throw_sent t input_tables hosts net net' errors :
  all_throw t input_tables hosts net = Some (net', errors) →
  sent net' = sent net ++ map (reduce_request t input_tables) hosts ∧
  ∃ logged,
    error_log net' = error_log net ++ logged ∧ map what logged = errors.
Proof.
  revert net net' errors.
  induction hosts as [|host hosts IH]; intros net net' errors; simpl.
  - intros [= <- <-]. rewrite app_nil_r. split; [done|].
    exists []. by rewrite app_nil_r.
  - destruct (executeRemote t input_tables host net) as [net1 [e|v]] eqn:Hrem;
      [|done].
    destruct (all_throw t input_tables hosts (logError e net1))
      as [[net2 errs]|] eqn:Hrest; [|done].
    intros [= <- <-].
    apply executeRemote_sent in Hrem as [Hsent Hlog].
    apply IH in Hrest as (Hsent2 & logged & Hlog2 & Hwhat).
    simpl in Hsent2, Hlog2. split.
    + rewrite Hsent2, Hsent. by rewrite <- app_assoc.
    + exists (e :: logged). rewrite Hlog2, Hlog. simpl.
      rewrite <- app_assoc. by rewrite Hwhat.
Qed.

(** The loop passes over hosts that throw, collecting their messages. *)
Lemma try_hosts_all_throw t input_tables failed later errors net net1 errs :
  all_throw t input_tables failed net = Some (net1, errs) →
  try_hosts t input_tables (failed ++ later) errors net =
  try_hosts t input_tables later (errors ++ errs) net1.
Proof.
  revert errors net net1 errs.
  induction failed as [|host failed IH]; intros errors net net1 errs; simpl.
  - intros [= <- <-]. by rewrite app_nil_r.
  - destruct (executeRemote t input_tables host net) as [net' [e|v]]; [|done].
    destruct (all_throw t input_tables failed (logError e net'))
      as [[net2 errs2]|] eqn:Hrest; [|done].
    intros [= <- <-]. rewrite (IH _ _ _ _ Hrest).
    by rewrite <- app_assoc.
Qed.

(** C7.  [execute] tries the replicas in the order of the replication
    policy.  Let the hosts [failed], a prefix of that order, throw one after
    the other: each was sent its request, in order, and each exception was
    logged.  If the next host returns - a result or None - [execute]
    returns that value, and no request went to a later host; if [failed] is
    the whole list, [execute] raises the runtime error whose message joins
    the messages of the hosts.  In particular with hosts A, B, C where A
    throws and B answers 201, the result is B's, and the requests sent are
    those to A and to B. *)
Theorem execute_failover t shard job output_id net failed net1 errs :
  let input_tables := gather_inputs job (dependencies shard) in
  all_throw t input_tables failed net = Some (net1, errs) →
  (sent net1 = sent net ++ map (reduce_request t input_tables) failed ∧
   ∃ logged,
     error_log net1 = error_log net ++ logged ∧ map what logged = errs)
  ∧ (∀ host later net2 value,
       replicasFor output_id = failed ++ host :: later →
       executeRemote t input_tables host net1 = (net2, inr value) →
       execute t shard job output_id net = (net2, inr value) ∧
       sent net2 =
         sent net ++ map (reduce_request t input_tables) (failed ++ [host]) ∧
       error_log net2 = error_log net1)
  ∧ (replicasFor output_id = failed →
     execute t shard job output_id net =
       (net1,
        inl (RAISE kRuntimeError
               ("MapTableTask::execute failed: "
                  +:+ String.concat ", " errs))))
  ∧ (∀ A B C w res,
       failed = [A] →
       replicasFor output_id = [A; B; C] →
       executeRequest (world net1) (reduce_request t input_tables B)
         = (w, inr res) →
       statusCode res = 201 →
       ∃ net2,
         execute t shard job output_id net =
           (net2, inr (Some {| host := B;
                               result_id := fromHexString (body res) |})) ∧
         sent net2 =
           sent net ++ [reduce_request t input_tables A;
                        reduce_request t input_tables B]).
Proof.
  intros input_tables Hfailed.
  pose proof (all_throw_sent _ _ _ _ _ _ Hfailed) as [Hsent Hlog].
  assert (Hnext : ∀ host later net2 value,
    replicasFor output_id = failed ++ host :: later →
    executeRemote t input_tables host net1 = (net2, inr value) →
    execute t shard job output_id net = (net2, inr value) ∧
    sent net2 =
      sent net ++ map (reduce_request t input_tables) (failed ++ [host]) ∧
    error_log net2 = error_log net1).
  { intros host later net2 value Hhosts Hrem. unfold execute.
    fold input_tables. rewrite Hhosts.
    rewrite (try_hosts_all_throw _ _ _ _ _ _ _ _ Hfailed). simpl.
    rewrite Hrem. split; [done|].
    apply executeRemote_sent in Hrem as [-> ->]. split; [|done].
    by rewrite Hsent, map_app, app_assoc. }
  split; [done|]. split; [done|]. split.
  - intros Hhosts. unfold execute. fold input_tables. rewrite Hhosts.
    rewrite <- (app_nil_r failed) at 1.
    by rewrite (try_hosts_all_throw _ _ _ _ _ _ _ _ Hfailed).
  - intros A B C w res -> Hhosts Hreq H201.
    assert (Hrem :
      executeRemote t input_tables B net1 =
        ({| world := w;
            sent := sent net1 ++ [reduce_request t input_tables B];
            error_log := error_log net1 |},
         inr (Some {| host := B; result_id := fromHexString (body res) |}))).
    { unfold executeRemote, http_executeRequest. by rewrite Hreq, H201. }
    destruct (Hnext B [C] _ _ Hhosts Hrem) as (Hexec & Hsent2 & _).
    eexists. split; [apply Hexec|apply Hsent2].
Qed.

(** C10.  When the replication policy has no host for the output id,
    [execute] returns no result: it raises the aggregate runtime error,
    with no host message to join, and sends no request. *)
Theorem execute_no_replicas t shard job output_id net :
  replicasFor output_id = [] →
  execute t shard job output_id net =
    (net, inl (RAISE kRuntimeError "MapTableTask::execute failed: ")).
Proof.
  intros Hhosts. unfold execute. by rewrite Hhosts.
Qed.

End ReduceTask_properties.

(** ** The same, at a concrete cluster *)

Lemma table_task_well_built this n : well_built (table_task this n).
Proof.
  intros shards Htopo. simpl. split; [|split].
  - induction n as [|n IH] in shards, Htopo |- *; simpl.
    + by rewrite app_nil_r.
    + rewrite (cons_middle _ shards), app_assoc. apply IH.
      intros i shard d Hi Hd.
      destruct (decide (i < length shards)%nat) as [Hlt|Hge].
      * rewrite lookup_app_l in Hi by done. by eapply Htopo.
      * rewrite lookup_app_r in Hi by lia.
        apply list_lookup_singleton_Some in Hi as [_ <-].
        simpl in Hd. by apply elem_of_nil in Hd.
  - rewrite length_app. lia.
  - apply Forall_forall. intros i Hi. apply elem_of_seq in Hi.
    rewrite length_app, length_replicate. lia.
Qed.

Lemma ReduceTask_build_topological_witness :
  let inner := sample_reduce [table_task 1 2] 2 in
  let outer := sample_reduce [ReduceTask_task inner; table_task 2 2] 3 in
  Forall well_built (sources_ outer) ∧
  ∀ i shard d,
    (ReduceTask_build outer []).2 !! i = Some shard →
    d ∈ dependencies shard → (d < i)%nat.
Proof.
  intros inner outer.
  assert (Hsources : Forall well_built (sources_ outer)).
  { apply Forall_cons_2; [|apply Forall_cons_2; [|apply Forall_nil_2]].
    - apply (ReduceTask_build_topological inner).
      apply Forall_cons_2; [|apply Forall_nil_2].
      apply table_task_well_built.
    - apply table_task_well_built. }
  split; [exact Hsources|].
  apply (ReduceTask_build_topological outer Hsources).
Defined.

Lemma ReduceTask_build_fan_in_witness :
  let t := sample_reduce [table_task 1 2; table_task 2 2] 3 in
  let leaf1 := {| task := 1; dependencies := [] |} in
  let leaf2 := {| task := 2; dependencies := [] |} in
  let reduce_shard := {| task := 7; dependencies := [0; 1; 2; 3]%nat |} in
  build (table_task 1 2) [] = ([0; 1]%nat, [leaf1; leaf1]) ∧
  build (table_task 2 2) [leaf1; leaf1]
    = ([2; 3]%nat, [leaf1; leaf1; leaf2; leaf2]) ∧
  ReduceTask_build t [] =
    ([4; 5; 6]%nat,
     [leaf1; leaf1; leaf2; leaf2; reduce_shard; reduce_shard; reduce_shard]).
Proof.
  intros t leaf1 leaf2 reduce_shard.
  split; [reflexivity|]. split; [reflexivity|].
  destruct (ReduceTask_build_fan_in t []) as [_ Hexample].
  apply (Hexample (table_task 1 2) (table_task 2 2)); reflexivity.
Defined.

(** Replica A answers 500, replica B answers 201; C is never asked. *)
Lemma execute_failover_witness :
  let t := sample_reduce [] 1 in
  let shard := {| task := 7; dependencies := [0; 1]%nat |} in
  let net :=
    quiet [inr (mkResponse 500 "boom"); inr (mkResponse 201 "aabb")] in
  let input_tables := gather_inputs sample_job (dependencies shard) in
  ∃ net1 errs,
    all_throw t input_tables [replica_A] net = Some (net1, errs) ∧
    ∃ net2,
      execute t shard sample_job 1 net =
        (net2, inr (Some {| host := replica_B; result_id := 43707 |})) ∧
      sent net2 = [reduce_request t input_tables replica_A;
                   reduce_request t input_tables replica_B].
Proof.
  intros t shard net input_tables.
  eexists _, _. split; [vm_compute; reflexivity|].
  destruct (execute_failover t shard sample_job 1 net [replica_A] _ _ eq_refl)
    as (_ & _ & _ & Hexample).
  apply (Hexample replica_A replica_B replica_C []
           (mkResponse 201 "aabb")); reflexivity.
Defined.

Lemma executeRemote_by_status_witness :
  let t := sample_reduce [] 1 in
  let net := quiet [inr (mkResponse 201 "aabb")] in
  executeRequest (world net) (reduce_request t [] replica_B)
    = ([], inr (mkResponse 201 "aabb")) ∧
  executeRemote t [] replica_B net =
    ({| world := []; sent := [reduce_request t [] replica_B];
        error_log := [] |},
     inr (Some {| host := replica_B; result_id := 43707 |})).
Proof.
  intros t net. split; [reflexivity|].
  destruct (executeRemote_by_status t [] replica_B net []
              (mkResponse 201 "aabb") eq_refl) as (_ & H201 & _).
  apply H201. reflexivity.
Defined.

Lemma execute_no_replicas_witness :
  let t := sample_reduce [] 1 in
  let shard := {| task := 7; dependencies := [0]%nat |} in
  let net := quiet [inr (mkResponse 201 "aabb")] in
  replicasFor 0 = [] ∧
  execute t shard sample_job 0 net =
    (net, inl (RAISE kRuntimeError "MapTableTask::execute failed: ")).
Proof.
  intros t shard net. split; [reflexivity|].
  apply (execute_no_replicas t shard sample_job 0 net). reflexivity.
Defined.

(** * Further properties of the partition writer *)

#[local] Set Warnings "-clear-no-such-hyp".

Section LSMPartitionWriter_more.
Context {env : StorageEnv}.

Implicit Types (w : Writer) (head arena : gmap N RecordRef).
Implicit Types (r : RecordRef) (records : list RecordRef) (id : N).

(** ** insertRecords as a whole *)

(** When [insertRecords] returns, the writer was not frozen and every
    table had its sidecar. *)
Lemma probe_tables_indexed d base tables rec_versions rec_versions' :
  probe_tables d base tables rec_versions = inr rec_versions' →
  indexed d base tables = true.
Proof.
  revert rec_versions.
  induction tables as [|tbl tables IH]; intros rec_versions; simpl; [done|].
  unfold RecordVersionMap_lookup.
  destruct (idx_files d !! _) as [idx|] eqn:Hidx; [|done].
  intros Hrest%IH. rewrite Hrest, andb_true_r.
  apply bool_decide_eq_true. by eexists.
Qed.

Lemma insertRecords_returns records w ids w' :
  insertRecords records w = inr (ids, w') →
  frozen_ w = false ∧ tables_indexed w = true.
Proof.
  unfold insertRecords. destruct (frozen_ w); [done|].
  destruct (probe_tables _ _ _ _) as [e|rv] eqn:Hprobe; [done|].
  intros _. split; [done|].
  apply probe_tables_indexed in Hprobe.
  unfold tables_indexed. by rewrite <- indexed_rev.
Qed.

Lemma insertRecords_result records w ids w' :
  insertRecords records w = inr (ids, w') →
  ids = (retain_all w records).2 ∧
  w' = setSnapshot (set_head_arena (retain_all w records).1 (head_ w)) w.
Proof.
  intros Hres. destruct (insertRecords_returns _ _ _ _ Hres) as [Hf Hi].
  rewrite (insertRecords_retain_all w records Hf Hi) in Hres.
  by injection Hres as <- <-.
Qed.

Lemma retain_fold_ids w records head ids0 :
  fold_left (retain w) records (head, ids0) =
  ((fold_left (retain w) records (head, ∅)).1,
   ids0 ∪ (fold_left (retain w) records (head, ∅)).2).
Proof.
  revert head ids0.
  induction records as [|r records IH]; intros head ids0; cbn [fold_left].
  - simpl. by rewrite (right_id_L ∅ (∪)).
  - unfold retain at 2 4 6.
    destruct (known_version w head (record_id r) <? record_version r).
    + rewrite (IH _ ({[record_id r]} ∪ ids0)).
      rewrite (IH _ ({[record_id r]} ∪ ∅)). simpl. f_equal.
      rewrite (right_id_L ∅ (∪)), (comm_L (∪) _ ids0).
      by rewrite (assoc_L (∪)).
    + apply IH.
Qed.

Lemma retain_unrelated w head ids r id :
  record_id r ≠ id → (retain w (head, ids) r).1 !! id = head !! id.
Proof.
  intros Hne. unfold retain.
  destruct (known_version w head (record_id r) <? record_version r);
    [|done].
  simpl. by rewrite lookup_insert_ne.
Qed.

(** The outcome of a batch for one id, whatever the order of the batch:
    when the batch carries a version above the known one, the id is
    returned and the head arena ends with a record of the batch at the
    highest version the batch carries; otherwise the id is not returned
    and its entry in the head arena is as before. *)
Lemma retain_fold_closed w records head id :
  let M := batch_version records id in
  let out := fold_left (retain w) records (head, ∅) in
  (known_version w head id < M →
   id ∈ out.2 ∧
   ∃ r, r ∈ records ∧ record_id r = id ∧ record_version r = M ∧
        out.1 !! id =
          Some (set_is_update
                  (is_update r || (0 <? flushed_version w id)) r))
  ∧ (M ≤ known_version w head id →
     (id ∉ out.2) ∧ out.1 !! id = head !! id).
Proof.
  revert head.
  induction records as [|r records IH]; intros head;
    cbn [fold_left batch_version].
  - simpl. split; [lia|]. intros _. split; [set_solver|done].
  - destruct (N.eqb_spec (record_id r) id) as [Hid|Hne].
    + (* a record of this id *)
      unfold retain at 2 4 6 8. subst id.
      destruct (N.ltb_spec (known_version w head (record_id r))
                  (record_version r)) as [Hkeep|Hstale].
      * (* retained *)
        rewrite retain_fold_ids. cbn [fst snd].
        set (r' := set_is_update
                     (is_update r || (0 <? flushed_version w (record_id r)))
                     r).
        specialize (IH (<[record_id r := r']> head)).
        cbv zeta in IH. destruct IH as [IHup IHsame].
        assert (Hk1 : known_version w (<[record_id r := r']> head)
                        (record_id r) = record_version r).
        { unfold known_version in *.
          change (<[record_id r := r']> head)
            with (<[record_id r' := r']> head).
          rewrite fetchRecordVersion_insert.
          simpl. rewrite N.eqb_refl. lia. }
        rewrite Hk1 in IHup, IHsame.
        split; [|lia]. intros _.
        destruct (N.lt_ge_cases (record_version r)
                    (batch_version records (record_id r))) as [Hlt|Hge].
        -- destruct (IHup Hlt) as (Hin & r2 & Hr2 & Hid2 & Hv2 & Hlook).
           split; [set_solver|]. exists r2.
           split; [by right|]. split; [done|]. split; [lia|done].
        -- destruct (IHsame Hge) as (Hnin & Hlook).
           split; [set_solver|]. exists r.
           split; [by left|]. split; [done|]. split; [lia|].
           rewrite Hlook. by rewrite lookup_insert_eq.
      * (* not retained *)
        specialize (IH head). cbv zeta in IH. destruct IH as [IHup IHsame].
        split.
        -- intros Hlt.
           destruct IHup as (Hin & r2 & Hr2 & Hid2 & Hv2 & Hlook); [lia|].
           split; [done|]. exists r2.
           split; [by right|]. split; [done|]. split; [lia|done].
        -- intros Hle. apply IHsame. lia.
    + (* a record of another id *)
      pose proof (retain_unrelated w head ∅ r id Hne) as Hsame.
      destruct (retain w (head, ∅) r) as [head1 ids1] eqn:Hstep.
      assert (Hids1 : id ∉ ids1).
      { unfold retain in Hstep.
        destruct (known_version w head (record_id r) <? record_version r);
          injection Hstep as <- <-; set_solver. }
      simpl in Hsame. rewrite retain_fold_ids. cbn [fst snd].
      specialize (IH head1). cbv zeta in IH.
      assert (Hk : known_version w head1 id = known_version w head id).
      { unfold known_version, fetchRecordVersion. by rewrite Hsame. }
      rewrite Hk, Hsame in IH. destruct IH as [IHup IHsame].
      split.
      * intros Hlt.
        destruct (IHup Hlt) as (Hin & r2 & Hr2 & Hid2 & Hv2 & Hlook).
        split; [set_solver|]. exists r2. split; [by right|done].
      * intros Hle. destruct (IHsame Hle) as [Hnin Hlook].
        split; [set_solver|done].
Qed.


(** X1.  [insertRecords] touches nothing but the head arena, and there it
    only raises versions: the frozen flag, the base path, the compacting
    arena, the table list and the disk are as before, and for every id the
    version in the head arena - hence the known version - is not lower
    than before (invariant I1). *)
Theorem insertRecords_raises_versions records w ids w' :
  insertRecords records w = inr (ids, w') →
  frozen_ w' = frozen_ w ∧
  disk w' = disk w ∧
  base_path (head_ w') = base_path (head_ w) ∧
  compacting_arena (head_ w') = compacting_arena (head_ w) ∧
  lsm_tables (head_ w') = lsm_tables (head_ w) ∧
  ∀ id,
    fetchRecordVersion (head_arena (head_ w)) id
      ≤ fetchRecordVersion (head_arena (head_ w')) id ∧
    known_version w (head_arena (head_ w)) id
      ≤ known_version w' (head_arena (head_ w')) id.
Proof.
  intros [-> ->]%insertRecords_result. simpl.
  repeat (split; [done|]). intros id.
  rewrite known_version_set_head_arena.
  assert (Hmono : fetchRecordVersion (head_arena (head_ w)) id
                    ≤ fetchRecordVersion (retain_all w records).1 id).
  { unfold retain_all.
    destruct (retain_fold_closed w records (head_arena (head_ w)) id)
      as [Hup Hsame].
    destruct (N.lt_ge_cases (known_version w (head_arena (head_ w)) id)
                (batch_version records id)) as [Hlt|Hge].
    - destruct (Hup Hlt) as (_ & r & _ & _ & Hv & Hlook).
      unfold fetchRecordVersion at 2. rewrite Hlook. simpl.
      unfold known_version in Hlt. lia.
    - destruct (Hsame Hge) as [_ Hlook].
      unfold fetchRecordVersion. by rewrite Hlook. }
  split; [done|]. unfold known_version. lia.
Qed.


(** X3.  Inserting a batch a second time does nothing: the call returns
    the empty set and leaves the writer as the first call left it. *)
Theorem insertRecords_twice records w ids w' :
  insertRecords records w = inr (ids, w') →
  insertRecords records w' = inr (∅, w').
Proof.
  intros Hres. destruct (insertRecords_returns _ _ _ _ Hres) as [Hf Hi].
  apply insertRecords_result in Hres as [-> ->].
  set (head1 := (retain_all w records).1).
  set (w1 := setSnapshot (set_head_arena head1 (head_ w)) w).
  rewrite (insertRecords_retain_all w1 records Hf Hi).
  assert (Hout : retain_all w1 records = (head1, ∅)).
  { unfold retain_all. change (head_arena (head_ w1)) with head1.
    change (retain w1) with (retain w).
    assert (Hall : ∀ id,
      (id ∉ (fold_left (retain w) records (head1, ∅)).2) ∧
      (fold_left (retain w) records (head1, ∅)).1 !! id = head1 !! id).
    { intros id.
      apply (retain_fold_closed w records head1 id).
      subst head1. unfold retain_all.
      destruct (retain_fold_closed w records (head_arena (head_ w)) id)
        as [Hup Hsame]. cbv zeta in *.
      destruct (N.lt_ge_cases (known_version w (head_arena (head_ w)) id)
                  (batch_version records id)) as [Hlt|Hge].
      - destruct (Hup Hlt) as (_ & r & _ & _ & Hv & Hlook).
        unfold known_version, fetchRecordVersion. rewrite Hlook. simpl. lia.
      - destruct (Hsame Hge) as [_ Hlook].
        unfold known_version, fetchRecordVersion in *. rewrite Hlook. lia. }
    destruct (fold_left (retain w) records (head1, ∅)) as [head2 ids2].
    simpl in Hall. f_equal.
    - apply map_eq. intros id. apply Hall.
    - apply elem_of_equiv_empty_L. intros id. apply Hall. }
  rewrite Hout. reflexivity.
Qed.

(** X4.  A batch may be inserted in two calls: the second call, on the
    writer the first one left, ends with the writer that the whole batch
    gives, and the two returned sets together are the set the whole batch
    returns. *)
Theorem insertRecords_app records1 records2 w ids w' :
  insertRecords (records1 ++ records2) w = inr (ids, w') →
  ∃ ids1 w1 ids2,
    insertRecords records1 w = inr (ids1, w1) ∧
    insertRecords records2 w1 = inr (ids2, w') ∧
    ids = ids1 ∪ ids2.
Proof.
  intros Hres. destruct (insertRecords_returns _ _ _ _ Hres) as [Hf Hi].
  apply insertRecords_result in Hres as [-> ->].
  set (w1 := setSnapshot
               (set_head_arena (retain_all w records1).1 (head_ w)) w).
  exists (retain_all w records1).2, w1,
    (fold_left (retain w) records2 ((retain_all w records1).1, ∅)).2.
  split; [by apply insertRecords_retain_all|].
  rewrite (insertRecords_retain_all w1 records2 Hf Hi).
  unfold retain_all. rewrite fold_left_app.
  change (retain w1) with (retain w).
  change (head_arena (head_ w1))
    with (fold_left (retain w) records1 (head_arena (head_ w), ∅)).1.
  destruct (fold_left (retain w) records1 (head_arena (head_ w), ∅))
    as [head1 ids1].
  rewrite (retain_fold_ids w records2 head1 ids1). simpl.
  split; reflexivity.
Qed.

(** X5.  After [insertRecords]: when it returned no id the writer is as
    before; when it returned an id, [needsCommit] and [needsCompaction]
    hold; and a commit that was needed before is still needed. *)
Theorem insertRecords_needsCommit records w ids w' :
  insertRecords records w = inr (ids, w') →
  (ids = ∅ → w' = w) ∧
  (ids ≠ ∅ → needsCommit w' = true ∧ needsCompaction w' = true) ∧
  (needsCommit w = true → needsCommit w' = true).
Proof.
  intros Hres.
  assert (Hsome : ∀ id, is_Some (head_arena (head_ w) !! id) ∨ id ∈ ids →
                        is_Some (head_arena (head_ w') !! id)).
  { apply insertRecords_result in Hres as [-> ->]. simpl.
    intros id Hid. unfold retain_all in *.
    destruct (retain_fold_closed w records (head_arena (head_ w)) id)
      as [Hup Hsame]. cbv zeta in *.
    destruct (N.lt_ge_cases (known_version w (head_arena (head_ w)) id)
                (batch_version records id)) as [Hlt|Hge].
    - destruct (Hup Hlt) as (_ & r & _ & _ & _ & ->). by eexists.
    - destruct (Hsame Hge) as [Hnin ->]. by destruct Hid. }
  assert (Hneeds : ∀ id, is_Some (head_arena (head_ w') !! id) →
                         needsCommit w' = true).
  { intros id Hid. unfold needsCommit, arena_size.
    apply bool_decide_eq_true.
    assert (size (head_arena (head_ w')) ≠ 0%nat); [|lia].
    apply map_size_ne_0_lookup. by exists id. }
  split; [|split].
  - intros ->. apply insertRecords_result in Hres as [Hids ->].
    assert (Hhead : (retain_all w records).1 = head_arena (head_ w)).
    { apply map_eq. intros id. unfold retain_all in *.
      destruct (retain_fold_closed w records (head_arena (head_ w)) id)
        as [Hup Hsame]. cbv zeta in *.
      destruct (N.lt_ge_cases (known_version w (head_arena (head_ w)) id)
                  (batch_version records id)) as [Hlt|Hge].
      - destruct (Hup Hlt) as [Hin _]. rewrite <- Hids in Hin.
        by apply not_elem_of_empty in Hin.
      - by destruct (Hsame Hge) as [_ ->]. }
    rewrite Hhead. by destruct w as [f [b h c t] d].
  - intros Hne. apply set_choose_L in Hne as [id Hid].
    assert (Hn : needsCommit w' = true) by (apply (Hneeds id), Hsome; by right).
    split; [done|]. unfold needsCompaction. by rewrite Hn.
  - unfold needsCommit at 1, arena_size. intros Hn%bool_decide_eq_true.
    assert (Hne : size (head_arena (head_ w)) ≠ 0%nat) by lia.
    apply map_size_ne_0_lookup in Hne as [id Hid].
    apply (Hneeds id), Hsome. by left.
Qed.

(** ** writeArenaToDisk and commit as a whole *)

Lemma shred_fold_raised records e :
  fold_left shred_one records (inl e) = inl e.
Proof. induction records as [|r records IH]; simpl; done. Qed.

Lemma shred_fold_first_error records rows vmap e :
  first_decode_error records = Some e →
  fold_left shred_one records (inr (rows, vmap)) = inl e.
Proof.
  revert rows vmap.
  induction records as [|r records IH]; intros rows vmap; simpl; [done|].
  destruct (decode (record r)) as [e'|obj].
  - intros [= ->]. apply shred_fold_raised.
  - apply IH.
Qed.

Lemma first_decode_error_None records :
  first_decode_error records = None ↔
  forallb
    (λ r, match decode (record r) with inl _ => false | inr _ => true end)
    records = true.
Proof.
  induction records as [|r records IH]; simpl; [done|].
  destruct (decode (record r)); simpl; [done|apply IH].
Qed.


(** What the flip phase does, by cases. *)
Lemma commit_flip_cases w :
  (compacting_arena (head_ w) = None ∧
   (0 < arena_size (head_arena (head_ w)))%nat ∧
   commit_flip w =
     (Some (head_arena (head_ w)),
      setSnapshot
        {| base_path := base_path (head_ w); head_arena := ∅;
           compacting_arena := Some (head_arena (head_ w));
           lsm_tables := lsm_tables (head_ w) |} w))
  ∨ (commit_flip w = (compacting_arena (head_ w), w) ∧
     (compacting_arena (head_ w) = None →
      arena_size (head_arena (head_ w)) = 0%nat)).
Proof.
  unfold commit_flip.
  destruct (compacting_arena (head_ w)) as [a|]; simpl.
  - by right.
  - destruct (decide (0 < arena_size (head_arena (head_ w)))%nat)
      as [Hpos|Hzero].
    + left. by rewrite bool_decide_eq_true_2.
    + right. rewrite bool_decide_eq_false_2 by done.
      split; [done|]. lia.
Qed.

Lemma fetchRecordVersion_empty id : fetchRecordVersion ∅ id = 0.
Proof. unfold fetchRecordVersion. by rewrite lookup_empty. Qed.

(** The flip moves the records, it does not change what is known. *)
Lemma commit_flip_known w pending w1 id :
  commit_flip w = (pending, w1) →
  known_version w1 (head_arena (head_ w1)) id =
  known_version w (head_arena (head_ w)) id.
Proof.
  destruct (commit_flip_cases w) as [(Hca & _ & ->)|[-> _]].
  - intros [= <- <-]. simpl.
    unfold known_version, flushed_version, compacting_version, disk_version.
    simpl. rewrite Hca, fetchRecordVersion_empty. lia.
  - by intros [= <- <-].
Qed.

Lemma commit_flip_frame w pending w1 :
  commit_flip w = (pending, w1) →
  pending = compacting_arena (head_ w1) ∧
  frozen_ w1 = frozen_ w ∧ disk w1 = disk w ∧
  base_path (head_ w1) = base_path (head_ w) ∧
  lsm_tables (head_ w1) = lsm_tables (head_ w) ∧
  (compacting_arena (head_ w) = None →
   head_arena (head_ w1) = ∅ ∧
   ∀ a, pending = Some a →
        a = head_arena (head_ w) ∧ (0 < arena_size a)%nat).
Proof.
  destruct (commit_flip_cases w) as [(Hca & Hpos & ->)|[-> Hzero]].
  - intros [= <- <-]. simpl. do 5 (split; [done|]).
    intros _. split; [done|]. intros a [= Ha]. by subst a.
  - intros [= <- <-]. do 5 (split; [done|]).
    intros Hca. split.
    + apply map_size_empty_iff. by apply Hzero.
    + intros a Ha. congruence.
Qed.

(** [commit], by cases on what the flip phase hands over. *)
Lemma commit_cases filename w :
  ∃ pending w1,
    commit_flip w = (pending, w1) ∧
    match pending with
    | None => commit filename w = (None, w1)
    | Some a =>
        if bool_decide (0 < arena_size a)%nat then
          match writeArenaToDisk a
                  (joinPaths (base_path (head_ w1)) filename) (disk w1) with
          | inl e => commit filename w = (Some e, w1)
          | inr d =>
              commit filename w =
                (None, commit_install filename (set_disk d w1))
          end
        else commit filename w = (None, w1)
    end.
Proof.
  unfold commit, commit_flush.
  destruct (commit_flip w) as [[a|] w1].
  - exists (Some a), w1. split; [done|].
    destruct (bool_decide _); [|done].
    by destruct (writeArenaToDisk _ _ _).
  - by exists None, w1.
Qed.

(** X7.  [commit] leaves the writer exactly as it found it, without
    raising, if and only if there is nothing to flush: no compacting arena
    and an empty head arena, or a compacting arena that is empty.  (In the
    second case the head arena is not flushed, whatever it holds.) *)
Theorem commit_noop_iff filename w :
  commit filename w = (None, w) ↔
  (compacting_arena (head_ w) = None ∧
   arena_size (head_arena (head_ w)) = 0%nat)
  ∨ (∃ a, compacting_arena (head_ w) = Some a ∧ arena_size a = 0%nat).
Proof.
  destruct (commit_cases filename w) as (pending & w1 & Hflip & Hcommit).
  destruct (commit_flip_cases w) as [(Hca & Hpos & Hflipped)|[Hsame Hzero]].
  - (* flipped: a table is appended, or the flush raises *)
    rewrite Hflipped in Hflip. injection Hflip as <- <-.
    rewrite bool_decide_eq_true_2 in Hcommit by done.
    split.
    + intros Heq. exfalso.
      destruct (writeArenaToDisk _ _ _) as [e|d]; [congruence|].
      rewrite Heq in Hcommit. injection Hcommit as Hw.
      apply (f_equal (λ w, length (lsm_tables (head_ w)))) in Hw.
      simpl in Hw. rewrite length_app in Hw. simpl in Hw. lia.
    + intros [[_ Hz]|(a & Ha & _)]; [lia|congruence].
  - rewrite Hsame in Hflip. injection Hflip as <- <-.
    destruct (compacting_arena (head_ w)) as [a|] eqn:Hca.
    + destruct (decide (0 < arena_size a)%nat) as [Hpos|Hz].
      * rewrite bool_decide_eq_true_2 in Hcommit by done. split.
        -- intros Heq. exfalso.
           destruct (writeArenaToDisk _ _ _) as [e|d]; [congruence|].
           rewrite Heq in Hcommit. injection Hcommit as Hw.
           apply (f_equal (λ w, length (lsm_tables (head_ w)))) in Hw.
           simpl in Hw. rewrite length_app in Hw. simpl in Hw. lia.
        -- intros [[? _]|(a' & [= <-] & Hz)]; [done|lia].
      * rewrite bool_decide_eq_false_2 in Hcommit by done.
        split; [|done]. intros _. right. exists a. split; [done|lia].
    + split; [|done]. intros _. left. split; [done|]. by apply Hzero.
Qed.


(** X9.  When a record of the arena that [commit] is to flush does not
    decode, [commit] raises what the decoder raised; the published
    snapshot keeps that arena as its compacting arena and lists the tables
    it listed; what is known of every id is as before; and every further
    commit on that snapshot raises the same exception and publishes
    nothing - the head arena is not flushed again until the record is
    gone. *)
Theorem commit_decode_failure filename w a w1 e :
  commit_flip w = (Some a, w1) →
  (0 < arena_size a)%nat →
  first_decode_error (fetchRecords a) = Some e →
  (∃ w2, commit filename w = (Some e, w2) ∧ head_ w2 = head_ w1) ∧
  compacting_arena (head_ w1) = Some a ∧
  lsm_tables (head_ w1) = lsm_tables (head_ w) ∧
  (∀ id, known_version w1 (head_arena (head_ w1)) id =
         known_version w (head_arena (head_ w)) id) ∧
  ∀ filename' w2,
    head_ w2 = head_ w1 →
    ∃ w3, commit filename' w2 = (Some e, w3) ∧ head_ w3 = head_ w1.
Proof.
  intros Hflip Hpos Herr.
  destruct (commit_flip_frame _ _ _ Hflip) as (Harena & _ & _ & _ & Htbl & _).
  assert (Hraise : ∀ w2 w3 filename',
    commit_flip w2 = (Some a, w3) → commit filename' w2 = (Some e, w3)).
  { intros w2 w3 filename' Hflip2. unfold commit. rewrite Hflip2.
    rewrite bool_decide_eq_true_2 by done. unfold commit_flush.
    unfold writeArenaToDisk.
    by rewrite (shred_fold_first_error _ _ _ _ Herr). }
  split; [exists w1; split; [by apply Hraise|done]|].
  split; [done|]. split; [done|]. split.
  - intros id. by eapply commit_flip_known.
  - intros filename' w2 Hsnap. exists w2. split; [|done].
    apply Hraise. unfold commit_flip. by rewrite Hsnap, <- Harena.
Qed.

(** ** commit and the sidecar indexes *)

Lemma writeArenaToDisk_inr a file d d' :
  writeArenaToDisk a file d = inr d' →
  ∃ rows vmap,
    d' = {| idx_files := <[file +:+ ".idx" := vmap]> (idx_files d);
            cst_files := <[file +:+ ".cst" := rows]> (cst_files d);
            snapshot_file := snapshot_file d |} ∧
    (arena_wf a → vmap = versions_of a).
Proof.
  intros Hwrite.
  destruct (first_decode_error (fetchRecords a)) as [e|] eqn:Herr.
  - unfold writeArenaToDisk in Hwrite.
    by rewrite (shred_fold_first_error _ _ _ _ Herr) in Hwrite.
  - apply first_decode_error_None in Herr.
    destruct (writeArenaToDisk_decodable a file d Herr)
      as (rows & vmap & Hw & _ & _ & Hidx).
    rewrite Hw in Hwrite. injection Hwrite as <-. by exists rows, vmap.
Qed.

Lemma indexed_insert d d' base tables path vmap :
  idx_files d' = <[path := vmap]> (idx_files d) →
  indexed d base tables = true →
  indexed d' base tables = true.
Proof.
  intros Hd'. unfold indexed. rewrite Hd'.
  induction tables as [|tbl tables IH]; simpl; [done|].
  intros [Htbl Hrest]%andb_true_iff. rewrite (IH Hrest), andb_true_r.
  apply bool_decide_eq_true. apply bool_decide_eq_true in Htbl.
  rewrite lookup_insert. by case_decide.
Qed.

Lemma tables_version_insert d d' base tables path vmap id :
  idx_files d' = <[path := vmap]> (idx_files d) →
  forallb
    (λ tbl, bool_decide (joinPaths base (filename tbl +:+ ".idx") ≠ path))
    tables = true →
  tables_version d' base tables id = tables_version d base tables id.
Proof.
  intros Hd'. induction tables as [|tbl tables IH]; simpl; [done|].
  intros [Htbl Hrest]%andb_true_iff. rewrite (IH Hrest).
  apply bool_decide_eq_true in Htbl.
  unfold index_version. rewrite Hd'. by rewrite lookup_insert_ne.
Qed.

Lemma versions_of_lookup a id :
  default 0 (versions_of a !! id) = fetchRecordVersion a id.
Proof.
  unfold versions_of, fetchRecordVersion. rewrite lookup_fmap.
  by destruct (a !! id).
Qed.

Lemma indexed_app d base l1 l2 :
  indexed d base (l1 ++ l2) = indexed d base l1 && indexed d base l2.
Proof. unfold indexed. apply forallb_app. Qed.

(** Phases B and C, entered with the arena [a] as compacting arena. *)
Lemma flush_install_indexed name w1 a d :
  writeArenaToDisk a (joinPaths (base_path (head_ w1)) name) (disk w1)
    = inr d →
  tables_indexed w1 = true →
  sidecar_path_agrees (base_path (head_ w1)) name →
  tables_indexed (commit_install name (set_disk d w1)) = true.
Proof.
  intros (rows & vmap & -> & _)%writeArenaToDisk_inr Hidx Hpath.
  unfold tables_indexed in *.
  cbn [commit_install setSnapshot set_disk writeToDisk head_ disk
       lsm_tables base_path idx_files].
  rewrite indexed_app. apply andb_true_iff. split.
  - eapply (indexed_insert (disk w1)); [reflexivity|exact Hidx].
  - unfold indexed. cbn [forallb filename idx_files].
    rewrite andb_true_r. apply bool_decide_eq_true.
    unfold sidecar_path_agrees in Hpath. rewrite Hpath. simpl.
    rewrite lookup_insert_eq. by eexists.
Qed.

Lemma flush_install_known name w1 a d id :
  compacting_arena (head_ w1) = Some a →
  writeArenaToDisk a (joinPaths (base_path (head_ w1)) name) (disk w1)
    = inr d →
  arena_wf a →
  fresh_table w1 name = true →
  sidecar_path_agrees (base_path (head_ w1)) name →
  let w' := commit_install name (set_disk d w1) in
  known_version w' (head_arena (head_ w')) id =
  known_version w1 (head_arena (head_ w1)) id.
Proof.
  intros Hca (rows & vmap & -> & Hvmap)%writeArenaToDisk_inr Hwf Hfresh Hpath.
  rewrite (Hvmap Hwf).
  unfold known_version, flushed_version, compacting_version, disk_version.
  cbn [commit_install setSnapshot set_disk writeToDisk head_ disk
       lsm_tables base_path idx_files head_arena compacting_arena].
  rewrite Hca, tables_version_app.
  erewrite (tables_version_insert (disk w1)); [|reflexivity|exact Hfresh].
  unfold tables_version at 2. cbn [foldr].
  unfold index_version at 1. cbn [idx_files filename].
  unfold sidecar_path_agrees in Hpath. rewrite Hpath.
  unfold writeToDisk. cbn [idx_files]. rewrite lookup_insert_eq.
  rewrite versions_of_lookup. lia.
Qed.

Lemma commit_indexed name w res w' :
  commit name w = (res, w') →
  tables_indexed w = true →
  sidecar_path_agrees (base_path (head_ w)) name →
  tables_indexed w' = true.
Proof.
  intros Hres Hidx Hpath.
  destruct (commit_cases name w) as (pending & w1 & Hflip & Hcommit).
  destruct (commit_flip_frame _ _ _ Hflip)
    as (_ & _ & Hdisk & Hbase & Htbl & _).
  assert (Hidx1 : tables_indexed w1 = true).
  { unfold tables_indexed in *. by rewrite Hdisk, Hbase, Htbl. }
  destruct pending as [a|].
  - destruct (bool_decide _).
    + destruct (writeArenaToDisk _ _ _) as [e|d] eqn:Hwrite.
      * rewrite Hres in Hcommit. by injection Hcommit as _ ->.
      * rewrite Hres in Hcommit. injection Hcommit as _ ->.
        eapply flush_install_indexed; [done..|]. by rewrite Hbase.
    + rewrite Hres in Hcommit. by injection Hcommit as _ ->.
  - rewrite Hres in Hcommit. by injection Hcommit as _ ->.
Qed.

Lemma commit_known name w res w' id :
  commit name w = (res, w') →
  arenas_wf w →
  fresh_table w name = true →
  sidecar_path_agrees (base_path (head_ w)) name →
  known_version w' (head_arena (head_ w')) id =
  known_version w (head_arena (head_ w)) id.
Proof.
  intros Hres [Hwf_head Hwf_comp] Hfresh Hpath.
  destruct (commit_cases name w) as (pending & w1 & Hflip & Hcommit).
  pose proof (commit_flip_known w pending w1 id Hflip) as Hknown1.
  destruct (commit_flip_frame _ _ _ Hflip)
    as (Hpending & _ & Hdisk & Hbase & Htbl & Hflipped).
  destruct pending as [a|].
  - destruct (bool_decide _).
    + destruct (writeArenaToDisk _ _ _) as [e|d] eqn:Hwrite.
      * rewrite Hres in Hcommit. by injection Hcommit as _ ->.
      * rewrite Hres in Hcommit. injection Hcommit as _ ->.
        rewrite <- Hknown1.
        apply (flush_install_known name w1 a d id); [done|done| | |].
        -- destruct (commit_flip_cases w) as [(_ & _ & Hfl)|[Hsame _]].
           ++ rewrite Hfl in Hflip. injection Hflip as Ha _.
              by rewrite <- Ha.
           ++ rewrite Hsame in Hflip. injection Hflip as Ha _.
              by apply Hwf_comp.
        -- unfold fresh_table in *. by rewrite Hbase, Htbl.
        -- by rewrite Hbase.
    + rewrite Hres in Hcommit. by injection Hcommit as _ ->.
  - rewrite Hres in Hcommit. by injection Hcommit as _ ->.
Qed.

(** A list that agrees in names with the first tables of another is the
    beginning of it. *)
Lemma install_same_list old_tables tables :
  (length old_tables ≤ length tables)%nat →
  (∀ j old tbl,
     old_tables !! j = Some old → tables !! j = Some tbl →
     filename old = filename tbl) →
  old_tables ++ drop (length old_tables) tables = tables.
Proof.
  intros Hlen Hnames. apply list_eq. intros i.
  destruct (decide (i < length old_tables)%nat) as [Hlt|Hge].
  - rewrite lookup_app_l by done.
    destruct (lookup_lt_is_Some_2 old_tables i Hlt) as [old Hold].
    destruct (lookup_lt_is_Some_2 tables i ltac:(lia)) as [tbl Htbl].
    rewrite Hold, Htbl. f_equal.
    specialize (Hnames i old tbl Hold Htbl).
    destruct old, tbl. simpl in Hnames. by subst.
  - rewrite lookup_app_r by lia. rewrite lookup_drop. f_equal. lia.
Qed.

(** The install step of [compact], entered with the list it captured as
    the compacted list (the compaction strategy of the source is a
    comment): whether it completes or raises, the published list is the
    list it found, and the arenas and the files of the tables are as it
    found them. *)
Lemma compact_install_identity old_tables w res w' :
  compact_install old_tables old_tables w = (res, w') →
  head_ w' = head_ w ∧ frozen_ w' = frozen_ w ∧
  idx_files (disk w') = idx_files (disk w) ∧
  cst_files (disk w') = cst_files (disk w).
Proof.
  unfold compact_install.
  destruct (Nat.ltb_spec (length (lsm_tables (head_ w))) (length old_tables))
    as [Hshort|Hlong]; [by intros [= <- <-]|].
  destruct (install_loop_outcome old_tables (lsm_tables (head_ w)) 0
              old_tables) as [(-> & _)|(-> & Hnames)];
    [by intros [= <- <-]|].
  rewrite Nat.sub_0_r, install_same_list by done.
  intros [= <- <-]. simpl. by destruct (head_ w).
Qed.

(** X10.  Invariant I5 - every listed table has its sidecar - is kept by
    every operation of the writer: by [insertRecords], by [commit] whether
    it completes or raises (the table it appends is listed only after both
    its files are written), by the install step of [compact], and by
    [compact] as a whole. *)
Theorem sidecars_invariant w :
  tables_indexed w = true →
  (∀ records ids w',
     insertRecords records w = inr (ids, w') → tables_indexed w' = true)
  ∧ (∀ name res w',
       sidecar_path_agrees (base_path (head_ w)) name →
       commit name w = (res, w') → tables_indexed w' = true)
  ∧ (∀ old_tables res w',
       compact_install old_tables old_tables w = (res, w') →
       tables_indexed w' = true)
  ∧ (∀ name res w',
       sidecar_path_agrees (base_path (head_ w)) name →
       compact name (λ w, w) w = (res, w') → tables_indexed w' = true).
Proof.
  intros Hidx.
  assert (Hinstall : ∀ w0 old_tables res w',
    tables_indexed w0 = true →
    compact_install old_tables old_tables w0 = (res, w') →
    tables_indexed w' = true).
  { intros w0 old_tables res w' Hidx0
      (Hsnap & _ & Hfiles & _)%compact_install_identity.
    unfold tables_indexed, indexed in *. by rewrite Hsnap, Hfiles. }
  split; [|split; [|split]].
  - intros records ids w' [_ ->]%insertRecords_result. exact Hidx.
  - intros name res w' Hpath Hres. by eapply commit_indexed.
  - intros old_tables res w'. by apply Hinstall.
  - intros name res w' Hpath. unfold compact.
    destruct (commit name w) as [[e|] w1] eqn:Hcommit.
    + intros [= <- <-]. by eapply commit_indexed.
    + apply Hinstall. by eapply commit_indexed.
Qed.

(** X11.  Flushing loses no version: when the arenas file their records
    by id and the file name drawn is not that of a listed table, the known
    version of every id - over head arena, compacting arena and sidecars -
    is the same after [commit], and after [compact], as before, whether
    they complete or raise.  What the head arena or the compacting arena
    knew is read back from the sidecar that was written. *)
Theorem flush_keeps_known_versions name w :
  arenas_wf w →
  fresh_table w name = true →
  sidecar_path_agrees (base_path (head_ w)) name →
  (∀ res w',
     commit name w = (res, w') →
     ∀ id, known_version w' (head_arena (head_ w')) id =
           known_version w (head_arena (head_ w)) id)
  ∧ (∀ res w',
       compact name (λ w, w) w = (res, w') →
       ∀ id, known_version w' (head_arena (head_ w')) id =
             known_version w (head_arena (head_ w)) id).
Proof.
  intros Hwf Hfresh Hpath. split.
  - intros res w' Hres id. by eapply commit_known.
  - intros res w'. unfold compact.
    destruct (commit name w) as [[e|] w1] eqn:Hcommit.
    + intros [= <- <-] id. by eapply commit_known.
    + intros (Hsnap & _ & Hfiles & _)%compact_install_identity id.
      rewrite <- (commit_known name w None w1 id Hcommit Hwf Hfresh Hpath).
      unfold known_version, flushed_version, compacting_version,
        disk_version, tables_version, index_version.
      by rewrite Hsnap, Hfiles.
Qed.


(** ** compact as a whole *)

(** X13.  A compaction is not aborted by commits that run beside it: when
    the commit of [compact] completes and the other threads have meanwhile
    only appended tables to the list, [compact] completes, and the list it
    publishes is the list it captured followed by the appended tables; the
    arenas are those it found at install time.  Without other threads it
    publishes the list its commit left. *)
Theorem compact_survives_appends name others w w1 extra :
  commit name w = (None, w1) →
  lsm_tables (head_ (others w1)) = lsm_tables (head_ w1) ++ extra →
  ∃ w',
    compact name others w = (None, w') ∧
    lsm_tables (head_ w') = lsm_tables (head_ w1) ++ extra ∧
    head_arena (head_ w') = head_arena (head_ (others w1)) ∧
    compacting_arena (head_ w') = compacting_arena (head_ (others w1)) ∧
    snapshot_file (disk w') = Some (lsm_tables (head_ w1) ++ extra).
Proof.
  intros Hcommit Hothers. unfold compact. rewrite Hcommit.
  unfold compact_install. rewrite Hothers.
  rewrite (proj2 (Nat.ltb_ge _ _)) by (rewrite length_app; lia).
  destruct (install_loop_outcome (lsm_tables (head_ w1))
              (lsm_tables (head_ w1) ++ extra) 0 (lsm_tables (head_ w1)))
    as [(_ & j & o & t & Ho & Ht & Hne)|(-> & _)].
  - exfalso. simpl in Ho.
    rewrite lookup_app_l in Ht by (by eapply lookup_lt_Some).
    congruence.
  - rewrite Nat.sub_0_r, drop_app_length. by eexists.
Qed.

(** X20.  As the source stands (its compaction strategy is a comment),
    [compact] never changes the table list: when its commit completes,
    then whatever other threads publish in between and whether the install
    step completes or raises, the snapshot published in the end is the one
    found at install time - same tables, same arenas - and the files of the
    tables are untouched. *)
Theorem compact_publishes_found_list name others w w1 res w' :
  commit name w = (None, w1) →
  compact name others w = (res, w') →
  head_ w' = head_ (others w1) ∧
  idx_files (disk w') = idx_files (disk (others w1)) ∧
  cst_files (disk w') = cst_files (disk (others w1)).
Proof.
  intros Hcommit. unfold compact. rewrite Hcommit. unfold compact_install.
  destruct (Nat.ltb_spec (length (lsm_tables (head_ (others w1))))
              (length (lsm_tables (head_ w1)))) as [Hshort|Hlong];
    [by intros [= <- <-]|].
  destruct (install_loop_outcome (lsm_tables (head_ w1))
              (lsm_tables (head_ (others w1))) 0 (lsm_tables (head_ w1)))
    as [(-> & _)|(-> & Hnames)]; [by intros [= <- <-]|].
  rewrite Nat.sub_0_r, install_same_list by done.
  intros [= <- <-]. simpl. by destruct (head_ (others w1)).
Qed.

(** ** What commit writes, and what it leaves alone *)


(** X18.  What [commit] never does, whether it completes or raises: it
    does not change the frozen flag or the base path; it does not remove
    or rename a listed table - the list is the old one, or the old one
    with the new table at the end; and it leaves every sidecar and every
    columnar file other than those of the new table as they were. *)
Theorem commit_frame name w res w' :
  commit name w = (res, w') →
  let file := joinPaths (base_path (head_ w)) name in
  frozen_ w' = frozen_ w ∧
  base_path (head_ w') = base_path (head_ w) ∧
  (lsm_tables (head_ w') = lsm_tables (head_ w) ∨
   res = None ∧
   lsm_tables (head_ w') = lsm_tables (head_ w) ++ [mkLSMTableRef name]) ∧
  (∀ path, path ≠ file +:+ ".idx" →
           idx_files (disk w') !! path = idx_files (disk w) !! path) ∧
  (∀ path, path ≠ file +:+ ".cst" →
           cst_files (disk w') !! path = cst_files (disk w) !! path).
Proof.
  intros Hres file.
  destruct (commit_cases name w) as (pending & w1 & Hflip & Hcommit).
  destruct (commit_flip_frame _ _ _ Hflip)
    as (_ & Hfr & Hdisk & Hbase & Htbl & _).
  assert (Hsame : ∀ res0, (res, w') = (res0, w1) →
    frozen_ w' = frozen_ w ∧
    base_path (head_ w') = base_path (head_ w) ∧
    (lsm_tables (head_ w') = lsm_tables (head_ w) ∨
     res = None ∧
     lsm_tables (head_ w') = lsm_tables (head_ w) ++ [mkLSMTableRef name]) ∧
    (∀ path, path ≠ file +:+ ".idx" →
             idx_files (disk w') !! path = idx_files (disk w) !! path) ∧
    (∀ path, path ≠ file +:+ ".cst" →
             cst_files (disk w') !! path = cst_files (disk w) !! path)).
  { intros res0 [= _ ->]. rewrite Hdisk. do 2 (split; [done|]).
    split; [by left|done]. }
  rewrite Hres in Hcommit.
  destruct pending as [a|]; [|by eapply Hsame].
  destruct (bool_decide _); [|by eapply Hsame].
  destruct (writeArenaToDisk _ _ _) as [e|d] eqn:Hwrite; [by eapply Hsame|].
  injection Hcommit as -> ->.
  apply writeArenaToDisk_inr in Hwrite as (rows & vmap & -> & _).
  simpl. rewrite Hfr, Hbase, Htbl, Hdisk. do 2 (split; [done|]).
  split; [by right|]. subst file. rewrite <- Hbase.
  split; intros path Hne; by rewrite lookup_insert_ne.
Qed.

(** An arena is filed by id when a check of its entries says so. *)
Lemma arena_wf_check arena :
  bool_decide (map_Forall (λ id r, record_id r = id) arena) = true →
  arena_wf arena.
Proof. intros Hall%bool_decide_eq_true id r Hr. by apply (Hall id r). Qed.

End LSMPartitionWriter_more.

(** ** The same, at concrete writers *)

Lemma sample_batch_inserted :
  insertRecords sample_batch sample_writer = inr ({[1; 3]}, sample_inserted).
Proof. vm_compute. reflexivity. Defined.

Lemma pending_writer_committed :
  commit "1f" pending_writer = (None, committed_writer).
Proof. vm_compute. reflexivity. Defined.

Lemma insertRecords_raises_versions_witness :
  insertRecords sample_batch sample_writer = inr ({[1; 3]}, sample_inserted) ∧
  disk sample_inserted = disk sample_writer ∧
  ∀ id,
    fetchRecordVersion (head_arena (head_ sample_writer)) id
      ≤ fetchRecordVersion (head_arena (head_ sample_inserted)) id.
Proof.
  split; [exact sample_batch_inserted|].
  destruct (insertRecords_raises_versions sample_batch sample_writer
              {[1; 3]} sample_inserted sample_batch_inserted)
    as (_ & Hdisk & _ & _ & _ & Hmono).
  split; [exact Hdisk|]. intros id. apply Hmono.
Defined.


Lemma insertRecords_twice_witness :
  insertRecords sample_batch sample_writer = inr ({[1; 3]}, sample_inserted) ∧
  insertRecords sample_batch sample_inserted = inr (∅, sample_inserted).
Proof.
  split; [exact sample_batch_inserted|].
  exact (insertRecords_twice sample_batch sample_writer {[1; 3]}
           sample_inserted sample_batch_inserted).
Defined.

Lemma insertRecords_app_witness :
  insertRecords ([mkRecordRef 1 5 "x" false]
                   ++ [mkRecordRef 2 3 "y" false; mkRecordRef 3 10 "z" false])
    sample_writer = inr ({[1; 3]}, sample_inserted) ∧
  ∃ ids1 w1 ids2,
    insertRecords [mkRecordRef 1 5 "x" false] sample_writer
      = inr (ids1, w1) ∧
    insertRecords [mkRecordRef 2 3 "y" false; mkRecordRef 3 10 "z" false] w1
      = inr (ids2, sample_inserted) ∧
    ({[1; 3]} : gset N) = ids1 ∪ ids2.
Proof.
  split; [exact sample_batch_inserted|].
  exact (insertRecords_app [mkRecordRef 1 5 "x" false]
           [mkRecordRef 2 3 "y" false; mkRecordRef 3 10 "z" false]
           sample_writer {[1; 3]} sample_inserted sample_batch_inserted).
Defined.

Lemma insertRecords_needsCommit_witness :
  insertRecords sample_batch sample_writer = inr ({[1; 3]}, sample_inserted) ∧
  needsCommit sample_inserted = true.
Proof.
  split; [exact sample_batch_inserted|].
  destruct (insertRecords_needsCommit sample_batch sample_writer
              {[1; 3]} sample_inserted sample_batch_inserted)
    as (_ & Hneeds & _).
  apply Hneeds. intros Hempty.
  assert (Hin : (1 : N) ∈ ({[1; 3]} : gset N)) by set_solver.
  rewrite Hempty in Hin. by apply not_elem_of_empty in Hin.
Defined.


Lemma commit_decode_failure_witness :
  let bad := RAISE kRuntimeError "invalid message" in
  let arena : gmap N RecordRef := {[ 1 := mkRecordRef 1 5 "" false ]} in
  let flipped :=
    setSnapshot
      {| base_path := "/p"; head_arena := ∅;
         compacting_arena := Some arena; lsm_tables := [] |}
      poisoned_writer in
  commit_flip poisoned_writer = (Some arena, flipped) ∧
  (0 < arena_size arena)%nat ∧
  @first_decode_error strict_storage (fetchRecords arena) = Some bad ∧
  (∃ w2, commit "1f" poisoned_writer = (Some bad, w2) ∧
         head_ w2 = head_ flipped) ∧
  ∃ w3, commit "2a" flipped = (Some bad, w3) ∧ head_ w3 = head_ flipped.
Proof.
  intros bad arena flipped.
  assert (Hflip : commit_flip poisoned_writer = (Some arena, flipped))
    by (vm_compute; reflexivity).
  assert (Hpos : (0 < arena_size arena)%nat) by (vm_compute; lia).
  assert (Herr : @first_decode_error strict_storage (fetchRecords arena)
                 = Some bad)
    by (vm_compute; reflexivity).
  split; [exact Hflip|]. split; [exact Hpos|]. split; [exact Herr|].
  destruct (commit_decode_failure "1f" poisoned_writer arena flipped bad
              Hflip Hpos Herr) as (Hcommit & _ & _ & _ & Hagain).
  split; [exact Hcommit|apply Hagain; reflexivity].
Defined.

Lemma sidecars_invariant_witness :
  tables_indexed pending_writer = true ∧
  @sidecar_path_agrees plain_storage "/p" "1f" ∧
  commit "1f" pending_writer = (None, committed_writer) ∧
  tables_indexed committed_writer = true.
Proof.
  split; [reflexivity|]. split; [reflexivity|].
  split; [exact pending_writer_committed|].
  destruct (sidecars_invariant pending_writer eq_refl) as (_ & Hcommit & _).
  exact (Hcommit "1f" None committed_writer eq_refl
           pending_writer_committed).
Defined.

Lemma pending_writer_wf : arenas_wf pending_writer.
Proof.
  split.
  - apply arena_wf_check. vm_compute. reflexivity.
  - intros arena Harena. discriminate Harena.
Defined.

Lemma flush_keeps_known_versions_witness :
  arenas_wf pending_writer ∧
  fresh_table pending_writer "1f" = true ∧
  @sidecar_path_agrees plain_storage "/p" "1f" ∧
  commit "1f" pending_writer = (None, committed_writer) ∧
  known_version committed_writer (head_arena (head_ committed_writer)) 1 = 5.
Proof.
  split; [exact pending_writer_wf|]. split; [reflexivity|].
  split; [reflexivity|]. split; [exact pending_writer_committed|].
  destruct (flush_keeps_known_versions "1f" pending_writer
              pending_writer_wf eq_refl eq_refl) as [Hcommit _].
  rewrite (Hcommit None committed_writer pending_writer_committed 1).
  vm_compute. reflexivity.
Defined.


Lemma compact_survives_appends_witness :
  commit "1f" pending_writer = (None, committed_writer) ∧
  lsm_tables (head_ (concurrent_commit committed_writer))
    = lsm_tables (head_ committed_writer) ++ [mkLSMTableRef "9e"] ∧
  ∃ w',
    compact "1f" concurrent_commit pending_writer = (None, w') ∧
    lsm_tables (head_ w') = [mkLSMTableRef "1f"; mkLSMTableRef "9e"].
Proof.
  split; [exact pending_writer_committed|]. split; [reflexivity|].
  destruct (compact_survives_appends "1f" concurrent_commit pending_writer
              committed_writer [mkLSMTableRef "9e"]
              pending_writer_committed eq_refl)
    as (w' & Hcompact & Htables & _).
  exists w'. split; [exact Hcompact|exact Htables].
Defined.


Lemma commit_frame_witness :
  commit "1f" pending_writer = (None, committed_writer) ∧
  lsm_tables (head_ committed_writer)
    = lsm_tables (head_ pending_writer) ++ [mkLSMTableRef "1f"].
Proof.
  split; [exact pending_writer_committed|].
  destruct (commit_frame "1f" pending_writer None committed_writer
              pending_writer_committed) as (_ & _ & [Hsame|[_ Happ]] & _).
  - discriminate Hsame.
  - exact Happ.
Defined.

Lemma compact_publishes_found_list_witness :
  commit "1f" pending_writer = (None, committed_writer) ∧
  ∃ w',
    compact "1f" concurrent_commit pending_writer = (None, w') ∧
    head_ w' = head_ (concurrent_commit committed_writer).
Proof.
  split; [exact pending_writer_committed|].
  eexists. split; [vm_compute; reflexivity|].
  eapply (compact_publishes_found_list "1f" concurrent_commit pending_writer
            committed_writer None); [exact pending_writer_committed|].
  vm_compute. reflexivity.
Defined.

(** * Further properties of the reduce task *)

Section ReduceTask_more.
Context {cluster : ClusterEnv}.

Implicit Types (t : ReduceTask) (shards : list MapReduceTaskShard).
Implicit Types (sources : list MapReduceTask) (net : Net).
Implicit Types (hosts : list ReplicaRef) (errors : list string).

(** ** build *)

Lemma build_in_order_appends sources shards :
  Forall appends_only sources →
  ∃ new, (build_in_order sources shards).2 = shards ++ new.
Proof.
  intros Hsources. revert shards.
  induction Hsources as [|src sources Hsrc _ IH]; intros shards; simpl.
  - exists []. by rewrite app_nil_r.
  - destruct (Hsrc shards) as [new1 H1].
    destruct (build src shards) as [ixs1 shards1]. simpl in H1. subst shards1.
    destruct (IH (shards ++ new1)) as [new2 H2].
    destruct (build_in_order sources (shards ++ new1)) as [ixs2 shards2].
    simpl in *. subst shards2. exists (new1 ++ new2). by rewrite app_assoc.
Qed.

(** X14.  [build] of a reduce task returns as many indexes as it has
    shards, without repetition, and each of them is the place in the list
    of a shard of this task that depends on everything the sources
    returned.  When the sources only append to the list, so does the
    reduce task: the shards that were in the list stay where they were,
    and the returned indexes lie beyond them. *)
Theorem ReduceTask_build_indexes t shards :
  length (ReduceTask_build t shards).1 = num_shards_ t
  ∧ NoDup (ReduceTask_build t shards).1
  ∧ (∀ i, i ∈ (ReduceTask_build t shards).1 →
       (ReduceTask_build t shards).2 !! i =
         Some {| task := this t;
                 dependencies := (build_in_order (sources_ t) shards).1 |})
  ∧ (Forall appends_only (sources_ t) →
     (∃ new, (ReduceTask_build t shards).2 = shards ++ new) ∧
     ∀ i, i ∈ (ReduceTask_build t shards).1 → (length shards ≤ i)%nat).
Proof.
  rewrite ReduceTask_build_closed. cbn [fst snd].
  split; [by rewrite length_seq|]. split; [apply NoDup_seq|]. split.
  - intros i [Hge Hlt]%elem_of_seq.
    rewrite lookup_app_r by lia.
    apply lookup_replicate_2. lia.
  - intros Hsources.
    destruct (build_in_order_appends (sources_ t) shards Hsources)
      as [new Hnew].
    rewrite Hnew. split.
    + eexists. by rewrite <- app_assoc.
    + intros i [Hge _]%elem_of_seq. rewrite length_app in Hge. lia.
Qed.

(** ** The request of executeRemote *)

Lemma string_app_assoc (a b c : string) :
  (a +:+ b) +:+ c = a +:+ (b +:+ c).
Proof.
  induction a as [|x a IH]; [reflexivity|].
  change (String x ((a +:+ b) +:+ c) = String x (a +:+ (b +:+ c))).
  by rewrite IH.
Qed.

Lemma string_app_empty_r (a : string) : a +:+ "" = a.
Proof.
  induction a as [|x a IH]; [reflexivity|].
  change (String x (a +:+ "") = String x a). by rewrite IH.
Qed.

Lemma reduce_url_fold input_tables (base : string) :
  fold_left
    (λ url input_table, url +:+ "&input_table=" +:+ urlEncode input_table)
    input_tables base =
  base +:+ input_table_params input_tables.
Proof.
  revert base. induction input_tables as [|u us IH]; intros base; simpl.
  - by rewrite string_app_empty_r.
  - rewrite IH. by rewrite !string_app_assoc.
Qed.

Lemma gather_inputs_fold job deps acc :
  fold_left
    (λ input_tables input,
       match getResultURL job input with
       | None => input_tables
       | Some input_tbl => input_tables ++ [input_tbl]
       end)
    deps acc = acc ++ omap (getResultURL job) deps.
Proof.
  revert acc. induction deps as [|i deps IH]; intros acc; simpl.
  - by rewrite app_nil_r.
  - rewrite IH. destruct (getResultURL job i); [|done].
    by rewrite <- app_assoc.
Qed.

(** X15.  The input tables of a shard are the result URLs of its
    dependencies that have one, in the order of the dependencies - a
    dependency without result is passed over - and the URL requested of a
    host is the URL for no input followed by one [input_table] parameter
    for each of them, in that order. *)
Theorem execute_input_tables t job deps host :
  gather_inputs job deps = omap (getResultURL job) deps
  ∧ (∀ u, u ∈ gather_inputs job deps ↔
          ∃ i, i ∈ deps ∧ getResultURL job i = Some u)
  ∧ reduce_url t (gather_inputs job deps) host =
      reduce_url t [] host
        +:+ input_table_params (omap (getResultURL job) deps).
Proof.
  assert (Hg : gather_inputs job deps = omap (getResultURL job) deps).
  { unfold gather_inputs. by rewrite gather_inputs_fold. }
  split; [done|]. split.
  - intros u. rewrite Hg. apply list_elem_of_omap.
  - rewrite Hg. unfold reduce_url. cbn [fold_left].
    by rewrite reduce_url_fold.
Qed.

(** ** execute, whatever the replicas do *)

(** X16.  Whatever the replicas do, [execute] contacts a prefix of the
    replica list, each host once and in order, with the same request but
    for the host.  When it returns a value at least one host was
    contacted and all but the last contacted host were logged as failed;
    when it raises, every host was contacted and logged, and the
    exception is a runtime error. *)
Theorem execute_contacts_prefix t shard job output_id net :
  let input_tables := gather_inputs job (dependencies shard) in
  let hosts := replicasFor output_id in
  let out := execute t shard job output_id net in
  ∃ k,
    (k ≤ length hosts)%nat ∧
    sent out.1 =
      sent net ++ map (reduce_request t input_tables) (take k hosts) ∧
    match out.2 with
    | inr _ =>
        (1 ≤ k)%nat ∧
        length (error_log out.1) = (length (error_log net) + k - 1)%nat
    | inl e =>
        k = length hosts ∧
        length (error_log out.1) = (length (error_log net) + k)%nat ∧
        etype e = kRuntimeError
    end.
Proof.
  intros input_tables hosts out. subst out. unfold execute.
  fold input_tables. fold hosts. generalize ([] : list string).
  revert net. induction hosts as [|host hosts IH]; intros net errors; simpl.
  - exists 0%nat. simpl. rewrite app_nil_r. repeat split; lia.
  - destruct (executeRemote t input_tables host net) as [net1 [e|v]] eqn:Hrem.
    + apply executeRemote_sent in Hrem as [Hsent Hlog].
      destruct (IH (logError e net1) (errors ++ [what e]))
        as (k & Hk & Hsent2 & Hres).
      exists (S k). split; [lia|]. split.
      * rewrite Hsent2. simpl. rewrite Hsent. by rewrite <- app_assoc.
      * destruct (try_hosts t input_tables hosts (errors ++ [what e])
                    (logError e net1)) as [net2 [e2|v2]];
          simpl in *; rewrite length_app, Hlog in Hres; simpl in Hres.
        -- destruct Hres as (-> & Hlen & Hty). repeat split; [lia|done].
        -- destruct Hres as [Hk1 Hlen]. split; lia.
    + apply executeRemote_sent in Hrem as [Hsent Hlog].
      exists 1%nat. simpl. split; [lia|]. split; [by rewrite Hsent|].
      rewrite Hlog. split; lia.
Qed.

(** X19.  A result that [execute] returns names one of the replicas of the
    output id as its host. *)
Theorem execute_result_host t shard job output_id net net' r :
  execute t shard job output_id net = (net', inr (Some r)) →
  host r ∈ replicasFor output_id.
Proof.
  unfold execute. generalize ([] : list string).
  generalize (gather_inputs job (dependencies shard)). intros input_tables.
  revert net.
  induction (replicasFor output_id) as [|h hosts IH]; intros net errors;
    simpl; [done|].
  destruct (executeRemote t input_tables h net) as [net1 [e|v]] eqn:Hrem.
  - intros Hrest%IH. by right.
  - intros [= -> ->]. unfold executeRemote in Hrem.
    destruct (http_executeRequest _ _) as [net2 [e|res]]; [done|].
    destruct (statusCode res =? 204); [done|].
    destruct (negb (statusCode res =? 201)); [done|].
    injection Hrem as _ <-. simpl. by left.
Qed.

End ReduceTask_more.

(** ** The same, at a concrete cluster *)

Lemma table_task_appends this n : appends_only (table_task this n).
Proof. intros shards. simpl. by eexists. Qed.

Lemma ReduceTask_build_indexes_witness :
  let t := sample_reduce [table_task 1 2; table_task 2 2] 3 in
  let old := {| task := 9; dependencies := [] |} in
  Forall appends_only (sources_ t) ∧
  (∃ new, (ReduceTask_build t [old]).2 = [old] ++ new) ∧
  ∀ i, i ∈ (ReduceTask_build t [old]).1 → (1 ≤ i)%nat.
Proof.
  intros t old.
  assert (Hsources : Forall appends_only (sources_ t)).
  { apply Forall_cons_2; [|apply Forall_cons_2; [|apply Forall_nil_2]];
      apply table_task_appends. }
  split; [exact Hsources|].
  destruct (ReduceTask_build_indexes t [old]) as (_ & _ & _ & Happ).
  exact (Happ Hsources).
Defined.

Lemma execute_result_host_witness :
  let t := sample_reduce [] 1 in
  let shard := {| task := 7; dependencies := [0; 1]%nat |} in
  let net :=
    quiet [inr (mkResponse 500 "boom"); inr (mkResponse 201 "aabb")] in
  ∃ net',
    execute t shard sample_job 1 net =
      (net', inr (Some {| host := replica_B; result_id := 43707 |})) ∧
    replica_B ∈ replicasFor 1.
Proof.
  intros t shard net. eexists. split; [vm_compute; reflexivity|].
  eapply (execute_result_host t shard sample_job 1 net _
            {| host := replica_B; result_id := 43707 |}).
  vm_compute. reflexivity.
Defined.
